(** * generic-ebpf: the fixed-block allocator, and the map and program
      objects that sit on top of it

    The first part of this development embeds [sys/dev/ebpf/ebpf_allocator.c]
    function by function.  The second part models the map update path and
    the program loader, whose C sources are exercised by the unit tests
    [HashTableMapUpdateTest] and [ProgLoadTest]. *)

From Stdlib Require Import ZArith List Lia Bool.
From Stdlib Require Import Strings.Byte.
From stdpp Require Import base list.
Import ListNotations.
Local Open Scope Z_scope.

(** ** Error numbers of [errno.h] *)

Definition ENOENT : Z := 2.
Definition ENOMEM : Z := 12.
Definition EBUSY : Z := 16.
Definition EEXIST : Z := 17.
Definition EINVAL : Z := 22.

(** ** Machine integers *)

(** A [uint32_t] holds its value modulo [2^32]. *)
Definition u32 (x : Z) : Z := x mod 2 ^ 32.

(** ** The host

    [ebpf_malloc] and [ebpf_free] belong to the platform glue.  The host
    is a record of the regions it has handed out and not yet taken back
    ([live], base address and byte size) and of the answers its allocator
    is going to give to the next requests ([oracle]); the null pointer is
    address [0], an exhausted oracle answers null. *)

Record world : Type := mkWorld {
  live : list (Z * Z);
  oracle : list Z
}.

(** What goes wrong in C without returning: a null pointer is
    dereferenced, or a loop does not end. *)
Inductive fault : Type := NullDeref | Diverge.

Inductive outcome (A : Type) : Type :=
| Done (a : A) (w : world)
| Crash (f : fault).
Arguments Done {A} a w.
Arguments Crash {A} f.

(** Computations that read and change the host and may go wrong. *)
Definition M (A : Type) : Type := world -> outcome A.

Definition ret {A : Type} (a : A) : M A := fun w => Done a w.

Definition bind {A B : Type} (c : M A) (k : A -> M B) : M B :=
  fun w => match c w with
           | Done a w' => k a w'
           | Crash f => Crash f
           end.

Definition crash {A : Type} (f : fault) : M A := fun _ => Crash f.

Notation "x <- c ;; k" := (bind c (fun x => k))
  (at level 100, c at next level, right associativity).

Definition ebpf_malloc (size : Z) : M Z := fun w =>
  match oracle w with
  | [] => Done 0 w
  | p :: rest =>
      if p =? 0 then Done 0 (mkWorld (live w) rest)
      else Done p (mkWorld ((p, size) :: live w) rest)
  end.

Fixpoint release (p : Z) (regions : list (Z * Z)) : list (Z * Z) :=
  match regions with
  | [] => []
  | (b, sz) :: rest => if b =? p then rest else (b, sz) :: release p rest
  end.

Definition ebpf_free (p : Z) : M unit := fun w =>
  Done tt (mkWorld (release p (live w)) (oracle w)).

(** ** Loops

    [do_while k body cond s] runs [do s = body s; while (cond s)] for at
    most [2^k] turns of the body; it costs only as many steps as the C
    loop takes.  [Running] says the turns were used up with the condition
    still true. *)

Inductive loop (S : Type) : Type :=
| Running (s : S)
| Exited (s : S).
Arguments Running {S} s.
Arguments Exited {S} s.

Fixpoint do_while {S : Type} (k : nat) (body : S -> S) (cond : S -> bool)
    (s : S) : loop S :=
  match k with
  | O => let s' := body s in if cond s' then Running s' else Exited s'
  | Datatypes.S k' =>
      match do_while k' body cond s with
      | Running s' => do_while k' body cond s'
      | Exited s' => Exited s'
      end
  end.

(** ** The allocator object

    [free_block] and [used_segment] are the two singly linked lists of
    [ebpf_allocator_t], as the lists of the addresses linked on them, head
    first.  The mutex has no part in a sequential run and is left out. *)

Record ebpf_allocator_t : Type := mkAlloc {
  free_block : list Z;
  used_segment : list Z;
  block_size : Z
}.

(** The three variables of the segment carving loop of
    [ebpf_allocator_alloc]. *)
Record carving : Type := mkCarving {
  c_data : Z;
  c_size : Z;
  c_free : list Z
}.

Section Allocator.

(** The constants the C file takes from its headers and from the host:
    [sizeof(void * )], [sizeof(ebpf_allocator_entry_t)] and the value of
    [ebpf_getpagesize()]. *)
Variable EBPF_ALLOCATOR_ALIGN : Z.
Variable entry_size : Z.
Variable pagesize : Z.

(** [size_t] and [uintptr_t] are as wide as a pointer. *)
Definition usz (x : Z) : Z := x mod 2 ^ (8 * EBPF_ALLOCATOR_ALIGN).

Definition ebpf_allocator_init (alloc : ebpf_allocator_t) (block_size : Z)
  : M (Z * ebpf_allocator_t) :=
  if negb (block_size mod EBPF_ALLOCATOR_ALIGN =? 0) || (block_size =? 0)
  then ret (EINVAL, alloc)
  else ret (0, mkAlloc [] [] block_size).

(** Lines 149 to 154.  The head insertion writes the old head into the
    link of the entry at [ptr] and then makes [ptr] the head, so a null
    [ptr] is dereferenced.  The two lists being kept as the sequences of
    the addresses linked on them, the new sequence is what the code leaves
    when the entry at [ptr] is memory the client may write and overlaps
    no entry linked on either list; [freeable] below says so, and what is
    proved about a free of an arbitrary pointer assumes it. *)
Definition ebpf_allocator_free (alloc : ebpf_allocator_t) (ptr : Z)
  : M ebpf_allocator_t :=
  if ptr =? 0 then crash NullDeref
  else ret (mkAlloc (ptr :: free_block alloc) (used_segment alloc)
              (block_size alloc)).

(** The byte count handed to [ebpf_malloc]: the sum is formed in
    [size_t], the result is stored in the [uint32_t size]. *)
Definition segment_size (bs : Z) : Z :=
  let size := u32 pagesize in
  let need := usz (entry_size + bs + EBPF_ALLOCATOR_ALIGN) in
  if usz size <? need then u32 need else size.

Definition carve_body (bs : Z) (s : carving) : carving :=
  mkCarving (c_data s + bs) (u32 (c_size s - bs)) (c_data s :: c_free s).

Definition carve_cond (bs : Z) (s : carving) : bool := c_size s >? bs.

(** Lines 99 to 136: the branch taken on an empty free list.  [inl]
    is the early [return NULL], [inr] falls through to the pop. *)
Definition alloc_refill (alloc : ebpf_allocator_t)
  : M (Z + ebpf_allocator_t) :=
  let size := segment_size (block_size alloc) in
  data <- ebpf_malloc size ;;
  if data =? 0 then ret (inl 0)
  else
    let segment := data in
    let used := segment :: used_segment alloc in
    let data := data + entry_size in
    let off := data in
    let mis := off mod EBPF_ALLOCATOR_ALIGN in
    let '(data, size) :=
      if negb (mis =? 0)
      then (data + (EBPF_ALLOCATOR_ALIGN - mis),
            u32 (usz (size - (EBPF_ALLOCATOR_ALIGN - mis))))
      else (data, size) in
    match do_while 32 (carve_body (block_size alloc))
            (carve_cond (block_size alloc))
            (mkCarving data size (free_block alloc)) with
    | Exited s => ret (inr (mkAlloc (c_free s) used (block_size alloc)))
    | Running _ => crash Diverge
    end.

(** Lines 138 to 143: [SLIST_FIRST] then [SLIST_REMOVE_HEAD], which
    reads the link of the head. *)
Definition alloc_pop (alloc : ebpf_allocator_t)
  : M (Z * ebpf_allocator_t) :=
  match free_block alloc with
  | [] => crash NullDeref
  | first :: rest =>
      ret (first, mkAlloc rest (used_segment alloc) (block_size alloc))
  end.

Definition ebpf_allocator_alloc (alloc : ebpf_allocator_t)
  : M (Z * ebpf_allocator_t) :=
  match free_block alloc with
  | [] =>
      r <- alloc_refill alloc ;;
      match r with
      | inl null => ret (null, alloc)
      | inr alloc' => alloc_pop alloc'
      end
  | _ :: _ => alloc_pop alloc
  end.

Fixpoint prealloc_loop (n : nat) (alloc : ebpf_allocator_t)
  : M (Z * ebpf_allocator_t) :=
  match n with
  | O => ret (0, alloc)
  | Datatypes.S n' =>
      r <- ebpf_allocator_alloc alloc ;;
      let '(tmp, alloc) := r in
      if tmp =? 0 then ret (ENOMEM, alloc)
      else
        alloc <- ebpf_allocator_free alloc tmp ;;
        prealloc_loop n' alloc
  end.

Definition ebpf_allocator_prealloc (alloc : ebpf_allocator_t) (nblocks : Z)
  : M (Z * ebpf_allocator_t) :=
  if nblocks =? 0 then ret (EINVAL, alloc)
  else prealloc_loop (Z.to_nat nblocks) alloc.

Fixpoint release_segments (segments : list Z) : M unit :=
  match segments with
  | [] => ret tt
  | tmp :: rest => _ <- ebpf_free tmp ;; release_segments rest
  end.

Definition ebpf_allocator_deinit (alloc : ebpf_allocator_t)
  : M ebpf_allocator_t :=
  _ <- release_segments (used_segment alloc) ;;
  ret (mkAlloc (free_block alloc) [] (block_size alloc)).

End Allocator.

(** ** What a client may rely on for a block

    The block of [block_size] bytes at [p] lies inside a region the host
    has handed out and whose base is linked on the used-segment list. *)
Definition in_segment (w : world) (a : ebpf_allocator_t) (p : Z) : Prop :=
  exists base sz,
    In base (used_segment a) /\ In (base, sz) (live w) /\
    base <= p /\ p + block_size a <= base + sz.

Definition block_ok (align : Z) (w : world) (a : ebpf_allocator_t) (p : Z)
  : Prop :=
  p mod align = 0 /\ in_segment w a p.

(** Every block waiting on the free list is such a block. *)
Definition allocator_inv (align : Z) (w : world) (a : ebpf_allocator_t)
  : Prop :=
  Forall (block_ok align w a) (free_block a).

(** A block of [bs] bytes at [p] that is aligned and lies behind the
    header of the segment of [size] bytes at [base]. *)
Definition fits (align entry base size bs p : Z) : Prop :=
  (align | p) /\ base + entry <= p /\ p + bs <= base + size.

(** What every turn of the carving loop finds: [data] and [size] are
    aligned, [size] still counts the header that [data] has passed, more
    than one block is left, and the blocks linked so far fit. *)
Definition carve_inv (align entry base size bs : Z) (s : carving) : Prop :=
  (align | c_data s) /\
  (align | c_size s) /\
  c_data s + c_size s = base + entry + size /\
  bs < c_size s < 2 ^ 32 /\
  base + entry <= c_data s /\
  Forall (fits align entry base size bs) (c_free s).

(** ** Clients of the allocator *)

(** What [ebpf_allocator_free] needs of [ptr] to link it: [ptr] is not
    null, the entry of [entry] bytes at [ptr] lies inside a region the
    host has handed out, [ptr] is linked on neither list, and its entry
    overlaps the entry of no address linked there (a segment is linked by
    the entry at its base). *)
Definition freeable (entry : Z) (w : world) (a : ebpf_allocator_t)
    (ptr : Z) : Prop :=
  ptr <> 0 /\
  (exists base sz,
     (base, sz) ∈ live w /\ base <= ptr /\ ptr + entry <= base + sz) /\
  (ptr ∉ free_block a) /\ (ptr ∉ used_segment a) /\
  forall q, q ∈ free_block a ++ used_segment a -> entry <= Z.abs (ptr - q).

(** The loop state [ebpf_allocator_alloc] starts carving with: [data]
    behind the header of the segment at [m] and moved up to the next
    aligned address, [size] reduced by that move only. *)
Definition carve_start (align entry m size : Z) : carving :=
  let data := m + entry in
  let mis := data mod align in
  if negb (mis =? 0)
  then mkCarving (data + (align - mis))
         (u32 (usz align (size - (align - mis)))) []
  else mkCarving data size [].

(** The [n] blocks of [bs] bytes that start at [d], highest first, as the
    carving loop links them. *)
Fixpoint blocks_from (d bs : Z) (n : nat) : list Z :=
  match n with
  | O => []
  | Datatypes.S n' => (d + Z.of_nat n' * bs) :: blocks_from d bs n'
  end.

(** No two addresses of the list are less than [bs] bytes apart: the
    blocks of [bs] bytes that start there do not overlap. *)
Definition spaced (bs : Z) (l : list Z) : Prop :=
  NoDup l /\
  forall x y, x ∈ l -> y ∈ l -> x <> y -> bs <= Z.abs (x - y).

(** The host refuses the next request. *)
Definition host_refuses (w : world) : Prop :=
  oracle w = [] \/ exists rest, oracle w = 0 :: rest.

(** The segments of the used-segment list are the regions on top of the
    host's record, in the same order. *)
Definition owns (held_before : list (Z * Z)) (a : ebpf_allocator_t)
    (w : world) : Prop :=
  0 < block_size a /\
  exists segs, live w = segs ++ held_before /\ segs.*1 = used_segment a.

(** The calls a client can make on an initialised allocator. *)
Inductive alloc_op : Type :=
| OpAlloc
| OpFree (ptr : Z)
| OpPrealloc (nblocks : Z).

Section Clients.

Variable EBPF_ALLOCATOR_ALIGN : Z.
Variable entry_size : Z.
Variable pagesize : Z.

(** A client that allocates [n] times and keeps the pointers, first
    answer first. *)
Fixpoint alloc_many (n : nat) (alloc : ebpf_allocator_t)
  : M (list Z * ebpf_allocator_t) :=
  match n with
  | O => ret ([], alloc)
  | Datatypes.S n' =>
      r <- ebpf_allocator_alloc EBPF_ALLOCATOR_ALIGN entry_size pagesize
             alloc ;;
      rs <- alloc_many n' (snd r) ;;
      ret (fst r :: fst rs, snd rs)
  end.

(** A client that makes the calls of [ops] in turn, with a record [held]
    of the blocks it was given and has not handed back.  It stops with
    [None] when it is about to free a pointer it does not hold. *)
Fixpoint client_run (ops : list alloc_op) (alloc : ebpf_allocator_t)
    (held : list Z) : M (option (ebpf_allocator_t * list Z)) :=
  match ops with
  | [] => ret (Some (alloc, held))
  | OpAlloc :: rest =>
      r <- ebpf_allocator_alloc EBPF_ALLOCATOR_ALIGN entry_size pagesize
             alloc ;;
      client_run rest (snd r)
        (if fst r =? 0 then held else fst r :: held)
  | OpFree ptr :: rest =>
      if bool_decide (ptr ∈ held) then
        alloc <- ebpf_allocator_free alloc ptr ;;
        client_run rest alloc (filter (fun q => q <> ptr) held)
      else ret None
  | OpPrealloc nblocks :: rest =>
      r <- ebpf_allocator_prealloc EBPF_ALLOCATOR_ALIGN entry_size pagesize
             alloc nblocks ;;
      client_run rest (snd r) held
  end.

End Clients.


(** What holds between the calls of a client that frees only what it
    holds: the blocks on the free list and the blocks held are all
    different and do not overlap, each lies behind the header of a
    segment of the used-segment list, the segments obtained and the
    segments the host will still grant are [size] bytes apart, and the
    host has a region of [size] bytes for each segment. *)
Definition client_inv (align entry size bs : Z) (a : ebpf_allocator_t)
    (held : list Z) (w : world) : Prop :=
  block_size a = bs /\
  spaced bs (free_block a ++ held) /\
  (forall x, x ∈ free_block a ++ held ->
     exists b, b ∈ used_segment a /\ fits align entry b size bs x) /\
  spaced size (used_segment a ++ filter (fun m => m <> 0) (oracle w)) /\
  Forall (fun m => (align | m)) (oracle w) /\
  (forall b, b ∈ used_segment a -> (b, size) ∈ live w).

(** * Maps

    The map core [ebpf_map.c] and its backends [ebpf_map_array.c] and
    [ebpf_map_hashtable.c] are reached here only through the unit test
    [HashTableMapUpdateTest]; the definitions of this part follow the
    design description of the map core and of its two backends. *)

(** Keys and values are byte strings, copied in and out by value. *)
Definition bytes : Type := list Byte.byte.

#[global] Instance byte_eq_dec : EqDecision Byte.byte := Byte.byte_eq_dec.

(** Modelled from the spec: the update flags of [ebpf_map.h], which is
    missing; the flag is one of ANY, NOEXIST and EXIST. *)
Inductive update_flag : Type := EBPF_ANY | EBPF_NOEXIST | EBPF_EXIST.

(** Modelled from the spec: the map types of [ebpf_map.h], which is
    missing; a closed enumeration, ARRAY and HASHTABLE plus the BAD and
    MAX sentinels. *)
Inductive map_type : Type :=
| EBPF_MAP_TYPE_BAD
| EBPF_MAP_TYPE_ARRAY
| EBPF_MAP_TYPE_HASHTABLE
| EBPF_MAP_TYPE_MAX.

(** Modelled from the spec: [struct ebpf_map_attr] of [ebpf_map.h],
    which is missing; fields [type], [key_size], [value_size],
    [max_entries] and [flags]. *)
Record ebpf_map_attr : Type := mkMapAttr {
  ma_type : map_type;
  ma_key_size : Z;
  ma_value_size : Z;
  ma_max_entries : Z;
  ma_flags : Z
}.

(** Modelled from the spec: the backend state behind [struct ebpf_map],
    whose declarations are missing.  The array keeps one slot per index,
    [None] while its occupancy bit is clear; the hash table keeps an
    array of buckets, each a chain of entries, newest first; the BAD type
    has no state. *)
Inductive backend : Type :=
| ArrayState (slots : list (option bytes))
| HashState (buckets : list (list (bytes * bytes)))
| BadState.

(** Modelled from the spec: [struct ebpf_map] of [ebpf_map.h], which is
    missing; the attributes of the map and the state of the backend its
    type selects. *)
Record ebpf_map : Type := mkMap {
  m_type : map_type;
  key_size : Z;
  value_size : Z;
  max_entries : Z;
  m_flags : Z;
  m_state : backend
}.

(** Modelled from the spec: a map whose backend state has been
    replaced, for the in-place updates of the missing backends. *)
Definition with_state (m : ebpf_map) (st : backend) : ebpf_map :=
  mkMap (m_type m) (key_size m) (value_size m) (max_entries m) (m_flags m) st.

(** Modelled from the spec: the key of the missing array backend, a
    32-bit index, read least significant byte first. *)
Fixpoint le_index (key : bytes) : Z :=
  match key with
  | [] => 0
  | b :: rest => Z.of_N (Byte.to_N b) + 256 * le_index rest
  end.

(** Modelled from the spec: the walk along the chain of a bucket of the
    missing hash table backend; keys are compared bytewise. *)
Fixpoint chain_find (key : bytes) (chain : list (bytes * bytes))
  : option bytes :=
  match chain with
  | [] => None
  | (k, v) :: rest =>
      if decide (k = key) then Some v else chain_find key rest
  end.

(** Modelled from the spec: the overwrite of the value of an entry of
    the missing hash table backend. *)
Fixpoint chain_store (key value : bytes) (chain : list (bytes * bytes))
  : list (bytes * bytes) :=
  match chain with
  | [] => []
  | (k, v) :: rest =>
      if decide (k = key) then (k, value) :: rest
      else (k, v) :: chain_store key value rest
  end.

(** Modelled from the spec: the unlinking of an entry of the missing
    hash table backend. *)
Fixpoint chain_remove (key : bytes) (chain : list (bytes * bytes))
  : list (bytes * bytes) :=
  match chain with
  | [] => []
  | (k, v) :: rest =>
      if decide (k = key) then rest else (k, v) :: chain_remove key rest
  end.

(** Modelled from the spec: the chain of bucket [i] of the missing hash
    table backend. *)
Definition bucket_at (buckets : list (list (bytes * bytes))) (i : nat)
  : list (bytes * bytes) :=
  default [] (buckets !! i).

(** Modelled from the spec: the element count of the missing hash table
    backend, the entries of all its chains. *)
Definition hashtable_count (buckets : list (list (bytes * bytes))) : Z :=
  Z.of_nat (length (concat buckets)).

(** Modelled from the spec: the element count of the missing array
    backend, the slots whose occupancy bit is set. *)
Definition array_count (slots : list (option bytes)) : Z :=
  Z.of_nat (length (omap id slots)).

(** Modelled from the spec: the element count of a map, which the
    missing [ebpf_map.c] keeps at or below [max_entries]. *)
Definition ebpf_map_count (m : ebpf_map) : Z :=
  match m_state m with
  | ArrayState slots => array_count slots
  | HashState buckets => hashtable_count buckets
  | BadState => 0
  end.

(** Modelled from the spec: the hash of the missing hash table backend,
    32-bit FNV-1a as the design names it. *)
Definition fnv1a (key : bytes) : Z :=
  fold_left
    (fun h b => (Z.lxor h (Z.of_N (Byte.to_N b)) * 16777619) mod 2 ^ 32)
    key 2166136261.

Section MapModel.

(** The hash function and the number of buckets (a power of two) are
    the implementation's choice. *)
Variable hash : bytes -> Z.
Variable bucket_bits : Z -> nat.

(** Modelled from the spec: the bucket the missing hash table backend
    selects for a key. *)
Definition bucket_index (buckets : list (list (bytes * bytes)))
    (key : bytes) : nat :=
  Z.to_nat (hash key mod Z.of_nat (length buckets)).

(** Modelled from the spec: the lookup of the missing
    [ebpf_map_array.c].  An index at or above [max_entries] is an invalid
    argument. *)
Definition array_map_lookup_elem (m : ebpf_map)
    (slots : list (option bytes)) (key : bytes) : Z * option bytes :=
  let i := le_index key in
  if max_entries m <=? i then (EINVAL, None)
  else match slots !! Z.to_nat i with
       | Some (Some v) => (0, Some v)
       | _ => (ENOENT, None)
       end.

(** Modelled from the spec: the update of the missing
    [ebpf_map_array.c].  NOEXIST on an occupied slot fails, EXIST on a
    free one is not-found. *)
Definition array_map_update_elem (m : ebpf_map)
    (slots : list (option bytes)) (key value : bytes) (flag : update_flag)
  : Z * list (option bytes) :=
  let i := le_index key in
  if max_entries m <=? i then (EINVAL, slots)
  else match slots !! Z.to_nat i, flag with
       | Some (Some _), EBPF_NOEXIST => (EEXIST, slots)
       | Some (Some _), _ => (0, <[Z.to_nat i := Some value]> slots)
       | _, EBPF_EXIST => (ENOENT, slots)
       | _, _ => (0, <[Z.to_nat i := Some value]> slots)
       end.

(** Modelled from the spec: the delete of the missing
    [ebpf_map_array.c], which clears the occupancy bit. *)
Definition array_map_delete_elem (m : ebpf_map)
    (slots : list (option bytes)) (key : bytes)
  : Z * list (option bytes) :=
  let i := le_index key in
  if max_entries m <=? i then (EINVAL, slots)
  else match slots !! Z.to_nat i with
       | Some (Some _) => (0, <[Z.to_nat i := None]> slots)
       | _ => (ENOENT, slots)
       end.

(** Modelled from the spec: the lookup of the missing
    [ebpf_map_hashtable.c].  The key selects a bucket, the chain of the
    bucket is searched bytewise. *)
Definition hashtable_map_lookup_elem (m : ebpf_map)
    (buckets : list (list (bytes * bytes))) (key : bytes)
  : Z * option bytes :=
  match chain_find key (bucket_at buckets (bucket_index buckets key)) with
  | Some v => (0, Some v)
  | None => (ENOENT, None)
  end.

(** Modelled from the spec: the update of the missing
    [ebpf_map_hashtable.c].  NOEXIST fails with exists-error on a key that
    is held, EXIST with not-found on one that is not; a new key is
    refused with busy-error once [max_entries] elements are held. *)
Definition hashtable_map_update_elem (m : ebpf_map)
    (buckets : list (list (bytes * bytes))) (key value : bytes)
    (flag : update_flag) : Z * list (list (bytes * bytes)) :=
  let i := bucket_index buckets key in
  let chain := bucket_at buckets i in
  match chain_find key chain, flag with
  | Some _, EBPF_NOEXIST => (EEXIST, buckets)
  | Some _, _ => (0, <[i := chain_store key value chain]> buckets)
  | None, EBPF_EXIST => (ENOENT, buckets)
  | None, _ =>
      if max_entries m <=? hashtable_count buckets then (EBUSY, buckets)
      else (0, <[i := (key, value) :: chain]> buckets)
  end.

(** Modelled from the spec: the delete of the missing
    [ebpf_map_hashtable.c]. *)
Definition hashtable_map_delete_elem (m : ebpf_map)
    (buckets : list (list (bytes * bytes))) (key : bytes)
  : Z * list (list (bytes * bytes)) :=
  let i := bucket_index buckets key in
  let chain := bucket_at buckets i in
  match chain_find key chain with
  | Some _ => (0, <[i := chain_remove key chain]> buckets)
  | None => (ENOENT, buckets)
  end.

(** Modelled from the spec: [ebpf_map_lookup_elem_from_user] of the
    missing [ebpf_map.c].  The map core hands every operation to the
    backend of the map; the backend of the BAD type answers
    invalid-argument to everything. *)
Definition ebpf_map_lookup_elem_from_user (m : ebpf_map) (key : bytes)
  : Z * option bytes :=
  match m_state m with
  | ArrayState slots => array_map_lookup_elem m slots key
  | HashState buckets => hashtable_map_lookup_elem m buckets key
  | BadState => (EINVAL, None)
  end.

(** Modelled from the spec: [ebpf_map_update_elem_from_user] of the
    missing [ebpf_map.c]. *)
Definition ebpf_map_update_elem_from_user (m : ebpf_map)
    (key value : bytes) (flag : update_flag) : Z * ebpf_map :=
  match m_state m with
  | ArrayState slots =>
      let '(e, slots') := array_map_update_elem m slots key value flag in
      (e, with_state m (ArrayState slots'))
  | HashState buckets =>
      let '(e, buckets') :=
        hashtable_map_update_elem m buckets key value flag in
      (e, with_state m (HashState buckets'))
  | BadState => (EINVAL, m)
  end.

(** Modelled from the spec: [ebpf_map_delete_elem_from_user] of the
    missing [ebpf_map.c]. *)
Definition ebpf_map_delete_elem_from_user (m : ebpf_map) (key : bytes)
  : Z * ebpf_map :=
  match m_state m with
  | ArrayState slots =>
      let '(e, slots') := array_map_delete_elem m slots key in
      (e, with_state m (ArrayState slots'))
  | HashState buckets =>
      let '(e, buckets') := hashtable_map_delete_elem m buckets key in
      (e, with_state m (HashState buckets'))
  | BadState => (EINVAL, m)
  end.

(** Modelled from the spec: the state the missing backends start from,
    no slot occupied, or a power of two of empty buckets. *)
Definition backend_init (attr : ebpf_map_attr) : backend :=
  match ma_type attr with
  | EBPF_MAP_TYPE_ARRAY =>
      ArrayState (replicate (Z.to_nat (ma_max_entries attr)) None)
  | EBPF_MAP_TYPE_HASHTABLE =>
      HashState (replicate (2 ^ bucket_bits (ma_max_entries attr))%nat [])
  | _ => BadState
  end.

(** Modelled from the spec: the validation of the missing
    [ebpf_map_init].  The attribute struct is refused when the type is a
    sentinel or one of the three sizes is zero, and by the array backend
    when the key is not a 32-bit index. *)
Definition attr_valid (attr : ebpf_map_attr) : bool :=
  match ma_type attr with
  | EBPF_MAP_TYPE_ARRAY => ma_key_size attr =? 4
  | EBPF_MAP_TYPE_HASHTABLE => true
  | _ => false
  end
  && negb (ma_key_size attr =? 0) && negb (ma_value_size attr =? 0)
  && negb (ma_max_entries attr =? 0).

(** Modelled from the spec: [ebpf_map_init] of the missing [ebpf_map.c].
    A bad attribute struct is invalid-argument; the storage of the
    backend comes from the host in one request, whose refusal is
    out-of-memory. *)
Definition ebpf_map_init (attr : ebpf_map_attr) : M (Z * option ebpf_map) :=
  if negb (attr_valid attr) then ret (EINVAL, None)
  else
    storage <- ebpf_malloc
      (ma_max_entries attr * (ma_key_size attr + ma_value_size attr)) ;;
    if storage =? 0 then ret (ENOMEM, None)
    else ret (0, Some (mkMap (ma_type attr) (ma_key_size attr)
                         (ma_value_size attr) (ma_max_entries attr)
                         (ma_flags attr) (backend_init attr))).

End MapModel.

(** A user operation on a map, and a run of such operations. *)
Inductive map_op : Type :=
| Update (key value : bytes) (flag : update_flag)
| Delete (key : bytes).

Definition map_step (hash : bytes -> Z) (m : ebpf_map) (op : map_op)
  : Z * ebpf_map :=
  match op with
  | Update key value flag =>
      ebpf_map_update_elem_from_user hash m key value flag
  | Delete key => ebpf_map_delete_elem_from_user hash m key
  end.

(** The error codes of a run, first operation first, and the map it
    leaves. *)
Fixpoint map_run (hash : bytes -> Z) (m : ebpf_map) (ops : list map_op)
  : list Z * ebpf_map :=
  match ops with
  | [] => ([], m)
  | op :: rest =>
      let '(e, m') := map_step hash m op in
      let '(es, m'') := map_run hash m' rest in
      (e :: es, m'')
  end.

(** An initialised map: its state is the one of its type, the array has
    one slot per index, and every entry of the hash table hangs in the
    bucket its key selects. *)
Definition map_wf (hash : bytes -> Z) (m : ebpf_map) : Prop :=
  0 < max_entries m /\
  match m_state m with
  | ArrayState slots =>
      m_type m = EBPF_MAP_TYPE_ARRAY /\
      Z.of_nat (length slots) = max_entries m
  | HashState buckets =>
      m_type m = EBPF_MAP_TYPE_HASHTABLE /\
      (0 < length buckets)%nat /\
      hashtable_count buckets <= max_entries m /\
      forall i k v, (k, v) ∈ bucket_at buckets i ->
                    bucket_index hash buckets k = i
  | BadState => False
  end.

(** The key is held: the lookup from user space finds a value. *)
Definition map_has (hash : bytes -> Z) (m : ebpf_map) (key : bytes) : Prop :=
  exists v, ebpf_map_lookup_elem_from_user hash m key = (0, Some v).

(** The key is one the backend can hold at all: an index below
    [max_entries] for the array, any key for the hash table. *)
Definition key_in_range (m : ebpf_map) (key : bytes) : Prop :=
  match m_state m with
  | ArrayState _ => le_index key < max_entries m
  | HashState _ => True
  | BadState => False
  end.

(** Capacity permits an update of the key: the index is in range, or the
    hash table has the key already or still has room for one more. *)
Definition capacity_permits (hash : bytes -> Z) (m : ebpf_map) (key : bytes)
  : Prop :=
  match m_state m with
  | ArrayState _ => le_index key < max_entries m
  | HashState buckets =>
      map_has hash m key \/ hashtable_count buckets < max_entries m
  | BadState => False
  end.

(** The keys of the unit tests: a [uint32_t], least significant byte
    first. *)
Definition byte_of (z : Z) : Byte.byte :=
  default Byte.x00 (Byte.of_N (Z.to_N (z mod 256))).

Definition le_bytes (z : Z) : bytes :=
  [byte_of z; byte_of (z / 256); byte_of (z / 65536);
   byte_of (z / 16777216)].

(** The map of [HashTableMapUpdateTest] after [SetUp], with four buckets,
    its attribute struct, and the keys [0] to [99] of
    [CorrectUpdateMoreThanMaxEntries], each stored as its own value. *)
Definition test_attr : ebpf_map_attr :=
  mkMapAttr EBPF_MAP_TYPE_HASHTABLE 4 4 100 0.

Definition test_map : ebpf_map :=
  mkMap EBPF_MAP_TYPE_HASHTABLE 4 4 100 0 (HashState (replicate 4 [])).

Definition test_entries : list (bytes * bytes) :=
  map (fun i => (le_bytes (Z.of_nat i), le_bytes (Z.of_nat i))) (seq 0 100).

(** * Programs

    [sys/dev/ebpf/ebpf_prog.c] is reached here only through the unit test
    [ProgLoadTest]; [ebpf_prog_init] follows the design description of
    the program object. *)

(** Modelled from the spec: [struct ebpf_inst], whose header is missing;
    fields opcode, dst_reg, src_reg, offset and imm. *)
Record ebpf_inst : Type := mkInst {
  opcode : Z;
  dst_reg : Z;
  src_reg : Z;
  offset : Z;
  imm : Z
}.

(** Modelled from the spec: the opcode of EXIT, from the missing
    instruction set header. *)
Definition EBPF_OP_EXIT : Z := 149.

(** Modelled from the spec: the program types of [ebpf_prog.h], which is
    missing; TEST between the BAD placeholder and the MAX sentinel. *)
Definition EBPF_PROG_TYPE_BAD : Z := 0.
Definition EBPF_PROG_TYPE_TEST : Z := 1.
Definition EBPF_PROG_TYPE_MAX : Z := 2.

(** Modelled from the spec: [struct ebpf_prog_attr] of [ebpf_prog.h],
    which is missing; [type], [prog] (a pointer to the instruction array,
    [None] when null) and [prog_len]. *)
Record ebpf_prog_attr : Type := mkProgAttr {
  pa_type : Z;
  pa_prog : option (list ebpf_inst);
  pa_prog_len : Z
}.

(** Modelled from the spec: [struct ebpf_prog] of [ebpf_prog.h], which is
    missing; the program object with its owned copy of the instructions
    and its table of attached maps. *)
Record ebpf_prog : Type := mkProg {
  p_type : Z;
  p_prog : list ebpf_inst;
  p_prog_len : Z;
  p_maps : list (option ebpf_map)
}.

Section ProgModel.

(** The bound on the number of instructions and the capacity of the
    attached-map table are the implementation's choice. *)
Variable MAX_INSTS : Z.
Variable MAX_ATTACHED_MAPS : nat.

(** Modelled from the spec: the type check of the missing
    [ebpf_prog_init], a type in the valid range that is no sentinel. *)
Definition prog_type_valid (t : Z) : bool :=
  (EBPF_PROG_TYPE_BAD <? t) && (t <? EBPF_PROG_TYPE_MAX).

(** Modelled from the spec: [ebpf_prog_init] of the missing
    [ebpf_prog.c].  [prog_obj] and [attr] are the two pointer arguments,
    [None] when null.  Any violation is invalid-argument; then the
    instructions are copied into a buffer of the host, whose refusal is
    out-of-memory, and the attached-map table is cleared. *)
Definition ebpf_prog_init (prog_obj : option ebpf_prog)
    (attr : option ebpf_prog_attr) : M (Z * option ebpf_prog) :=
  match prog_obj, attr with
  | None, _ | _, None => ret (EINVAL, prog_obj)
  | Some _, Some attr =>
      if negb (prog_type_valid (pa_type attr)) then ret (EINVAL, prog_obj)
      else
        match pa_prog attr with
        | None => ret (EINVAL, prog_obj)
        | Some insts =>
            if (pa_prog_len attr <? 1) || (MAX_INSTS <? pa_prog_len attr)
            then ret (EINVAL, prog_obj)
            else
              buf <- ebpf_malloc (8 * pa_prog_len attr) ;;
              if buf =? 0 then ret (ENOMEM, prog_obj)
              else ret (0, Some (mkProg (pa_type attr)
                                   (take (Z.to_nat (pa_prog_len attr)) insts)
                                   (pa_prog_len attr)
                                   (replicate MAX_ATTACHED_MAPS None)))
        end
  end.

End ProgModel.

(** The attribute struct of [CorrectLoad]: type TEST, one EXIT
    instruction, length 1. *)
Definition test_prog_attr : ebpf_prog_attr :=
  mkProgAttr EBPF_PROG_TYPE_TEST (Some [mkInst EBPF_OP_EXIT 0 0 0 0]) 1.

(** * Facts about loops *)

Section DoWhile.

Context {S : Type} (body : S -> S) (cond : S -> bool).

(** A property of the state at the top of the body that every turn
    taken hands to the next one holds at the top of the last turn. *)
Lemma do_while_inv (I : S -> Prop) :
  (forall s, I s -> cond (body s) = true -> I (body s)) ->
  forall k s, I s ->
    match do_while k body cond s with
    | Running s' => I s' /\ cond s' = true
    | Exited s' => exists s0, I s0 /\ s' = body s0 /\ cond s' = false
    end.
Proof.
  intros Hstep k. induction k as [|k IH]; intros s Hs; simpl.
  - destruct (cond (body s)) eqn:Hc.
    + split; [apply Hstep; assumption | assumption].
    + exists s. repeat split; assumption.
  - specialize (IH s Hs) as IH1.
    destruct (do_while k body cond s) as [s1|s1].
    + destruct IH1 as [Hs1 _]. apply IH. assumption.
    + assumption.
Qed.

(** A measure that every further turn makes smaller bounds the number
    of turns. *)
Variable mu : S -> Z.
Hypothesis decr : forall s, cond s = true -> 0 <= mu (body s) < mu s.

Lemma do_while_running k s s' :
  do_while k body cond s = Running s' ->
  cond s' = true /\ mu s' + 2 ^ Z.of_nat k <= mu (body s) + 1.
Proof.
  revert s s'. induction k as [|k IH]; intros s s' H.
  - simpl in H. destruct (cond (body s)) eqn:Hc; [|discriminate].
    injection H as <-. split; [assumption|]. simpl. lia.
  - simpl in H. destruct (do_while k body cond s) as [s1|s1] eqn:H1;
      [|discriminate].
    apply IH in H1 as [Hc1 Hm1]. apply IH in H as [Hc Hm].
    split; [assumption|].
    pose proof (decr s1 Hc1).
    rewrite Nat2Z.inj_succ, Z.pow_succ_r by lia. lia.
Qed.

Lemma do_while_exits k s :
  mu (body s) < 2 ^ Z.of_nat k ->
  exists s', do_while k body cond s = Exited s'.
Proof.
  intros Hlt. destruct (do_while k body cond s) as [s'|s'] eqn:H.
  - apply do_while_running in H as [Hc Hm].
    pose proof (decr s' Hc). lia.
  - exists s'. reflexivity.
Qed.

End DoWhile.

Arguments do_while : simpl never.

(** * The allocator *)

Section AllocatorFacts.

Variable EBPF_ALLOCATOR_ALIGN : Z.
Variable entry_size : Z.
Variable pagesize : Z.

Local Abbreviation init := (ebpf_allocator_init EBPF_ALLOCATOR_ALIGN).
Local Abbreviation alloc :=
  (ebpf_allocator_alloc EBPF_ALLOCATOR_ALIGN entry_size pagesize).
Local Abbreviation prealloc :=
  (ebpf_allocator_prealloc EBPF_ALLOCATOR_ALIGN entry_size pagesize).
Local Abbreviation seg_size :=
  (segment_size EBPF_ALLOCATOR_ALIGN entry_size pagesize).

(** C6: [ebpf_allocator_init] answers [EINVAL] exactly when the block
    size is zero or not a multiple of the pointer alignment; in every
    other case it answers [0] and leaves an allocator with both lists
    empty and the block size recorded. *)
Theorem ebpf_allocator_init_spec (a : ebpf_allocator_t) (bs : Z)
    (w : world) :
  ((exists a' w', init a bs w = Done (EINVAL, a') w') <->
   (bs = 0 \/ bs mod EBPF_ALLOCATOR_ALIGN <> 0)) /\
  ((bs = 0 \/ bs mod EBPF_ALLOCATOR_ALIGN <> 0) \/
   init a bs w = Done (0, mkAlloc [] [] bs) w).
Proof.
  unfold ebpf_allocator_init.
  destruct (Z.eqb_spec (bs mod EBPF_ALLOCATOR_ALIGN) 0) as [Hm|Hm];
    destruct (Z.eqb_spec bs 0) as [Hz|Hz]; simpl; unfold ret.
  - split; [split; [auto | intros _; eauto] | auto].
  - split; [|auto]. split.
    + intros (a' & w' & H). discriminate H.
    + intros [?|?]; contradiction.
  - split; [split; [auto | intros _; eauto] | auto].
  - split; [split; [auto | intros _; eauto] | auto].
Qed.

(** ** Handing a block back *)

(** A null [ptr] is dereferenced by the head insertion. *)
Lemma free_null (a : ebpf_allocator_t) (w : world) :
  ebpf_allocator_free a 0 w = Crash NullDeref.
Proof. reflexivity. Qed.

Lemma free_linked (a : ebpf_allocator_t) (ptr : Z) (w : world) :
  ptr <> 0 ->
  ebpf_allocator_free a ptr w =
    Done (mkAlloc (ptr :: free_block a) (used_segment a) (block_size a)) w.
Proof.
  intros Hp. unfold ebpf_allocator_free.
  rewrite (proj2 (Z.eqb_neq ptr 0) Hp). reflexivity.
Qed.

(** A call that returns was made with a [ptr] that is not null. *)
Lemma free_done (a a' : ebpf_allocator_t) (ptr : Z) (w w' : world) :
  ebpf_allocator_free a ptr w = Done a' w' ->
  ptr <> 0 /\ w' = w /\
  a' = mkAlloc (ptr :: free_block a) (used_segment a) (block_size a).
Proof.
  unfold ebpf_allocator_free.
  destruct (Z.eqb_spec ptr 0) as [Hz|Hnz]; [discriminate|].
  intros H. injection H as <- <-. auto.
Qed.

(** C8: for a [ptr] that can be linked, [ebpf_allocator_free] puts [ptr]
    at the head of the free list and changes nothing else: the host keeps
    every region it had handed out, the used-segment list and the block
    size are the same. *)
Theorem ebpf_allocator_free_frame (a : ebpf_allocator_t) (ptr : Z)
    (w : world) :
  freeable entry_size w a ptr ->
  exists a',
    ebpf_allocator_free a ptr w = Done a' w /\
    free_block a' = ptr :: free_block a /\
    used_segment a' = used_segment a /\
    block_size a' = block_size a.
Proof.
  intros (Hp & _). rewrite (free_linked a ptr w Hp).
  eexists. split; [reflexivity|]. simpl. auto.
Qed.

(** The loop of [ebpf_allocator_prealloc] ends with [0] or [ENOMEM]. *)
Lemma prealloc_loop_code (n : nat) :
  forall (a a' : ebpf_allocator_t) (w w' : world) (e : Z),
  prealloc_loop EBPF_ALLOCATOR_ALIGN entry_size pagesize n a w =
    Done (e, a') w' ->
  e = 0 \/ e = ENOMEM.
Proof.
  induction n as [|n IH]; intros a a' w w' e Hrun.
  - injection Hrun as <- _ _. left. reflexivity.
  - simpl in Hrun. unfold bind in Hrun.
    destruct (alloc a w) as [[tmp a1] w1|f]; [|discriminate].
    destruct (Z.eqb_spec tmp 0) as [Hz|Hnz].
    + injection Hrun as <- _ _. right. reflexivity.
    + rewrite (free_linked a1 tmp w1 Hnz) in Hrun.
      eapply IH. exact Hrun.
Qed.

(** C9: a block count of zero is refused with [EINVAL], and neither the
    allocator nor the host is touched; zero is the only count refused. *)
Theorem ebpf_allocator_prealloc_zero (a : ebpf_allocator_t) (w : world) :
  prealloc a 0 w = Done (EINVAL, a) w /\
  forall n e a' w',
    n <> 0 -> prealloc a n w = Done (e, a') w' -> e <> EINVAL.
Proof.
  split; [reflexivity|].
  intros n e a' w' Hn Hrun. unfold ebpf_allocator_prealloc in Hrun.
  rewrite (proj2 (Z.eqb_neq n 0) Hn) in Hrun.
  apply prealloc_loop_code in Hrun as [->| ->]; discriminate.
Qed.

(** ** The carving loop ends and leaves a block *)

Lemma carve_decr (bs : Z) (s : carving) :
  0 < bs -> carve_cond bs s = true ->
  0 <= c_size (carve_body bs s) < c_size s.
Proof.
  unfold carve_cond, carve_body, u32. simpl. intros Hbs Hc.
  apply Z.gtb_lt in Hc.
  pose proof (Z.mod_pos_bound (c_size s - bs) (2 ^ 32) ltac:(lia)).
  pose proof (Z.mod_le (c_size s - bs) (2 ^ 32) ltac:(lia) ltac:(lia)).
  lia.
Qed.

Lemma carve_exits (bs : Z) (s : carving) :
  0 < bs ->
  exists s0,
    do_while 32 (carve_body bs) (carve_cond bs) s =
      Exited (carve_body bs s0).
Proof.
  intros Hbs.
  destruct (do_while_exits (carve_body bs) (carve_cond bs) c_size
              (fun s => carve_decr bs s Hbs) 32 s) as [s' Hs'].
  - change (Z.of_nat 32) with 32. unfold carve_body, u32. simpl.
    apply Z.mod_pos_bound. lia.
  - pose proof (do_while_inv (carve_body bs) (carve_cond bs)
                  (fun _ => True) (fun _ _ _ => I) 32 s I) as Hinv.
    rewrite Hs' in Hinv. destruct Hinv as (s0 & _ & -> & _).
    exists s0. assumption.
Qed.

(** Blocks carved above a positive address are not null. *)
Lemma carve_nonnull (bs : Z) (s s' : carving) :
  0 < bs -> 0 < c_data s -> Forall (fun p => p <> 0) (c_free s) ->
  do_while 32 (carve_body bs) (carve_cond bs) s = Exited s' ->
  Forall (fun p => p <> 0) (c_free s').
Proof.
  intros Hbs Hd Hf Hrun.
  pose proof (do_while_inv (carve_body bs) (carve_cond bs)
    (fun s => 0 < c_data s /\ Forall (fun p => p <> 0) (c_free s))) as Hinv.
  specialize (Hinv ltac:(
    intros s1 [H1 H2] _; simpl; split;
      [lia | constructor; [lia | assumption]]) 32%nat s (conj Hd Hf)).
  rewrite Hrun in Hinv. destruct Hinv as (s0 & [H1 H2] & -> & _).
  simpl. constructor; [lia | assumption].
Qed.

(** C10: on an initialised allocator [ebpf_allocator_alloc] always
    returns, so the pop never meets an empty free list; and when the free
    list is not empty, or the host grants the segment, the pointer it
    returns is not null. *)
Theorem alloc_returns_block (a : ebpf_allocator_t) (w : world) :
  0 < EBPF_ALLOCATOR_ALIGN -> 0 <= entry_size -> 0 < block_size a ->
  Forall (fun p => p <> 0) (free_block a) ->
  (exists p a' w', alloc a w = Done (p, a') w') /\
  (free_block a <> [] \/ (exists m rest, oracle w = m :: rest /\ 0 < m) ->
   exists p a' w', alloc a w = Done (p, a') w' /\ p <> 0).
Proof.
  intros Hal Hent Hbs Hfree.
  unfold ebpf_allocator_alloc.
  destruct (free_block a) as [|p rest] eqn:Hfl.
  - (* empty free list: a segment is requested *)
    unfold bind, alloc_refill, bind, ebpf_malloc.
    destruct (oracle w) as [|m rest'] eqn:Hor.
    + simpl. split; [unfold ret; eauto|].
      intros [H|(m & r & H & _)]; [congruence | discriminate].
    + destruct (Z.eqb_spec m 0) as [Hm|Hm].
      * simpl. split; [unfold ret; eauto|].
        intros [H|(m' & r & H & Hpos)]; [congruence|].
        injection H as <- <-. lia.
      * rewrite (proj2 (Z.eqb_neq m 0) Hm).
        set (d := if negb ((m + entry_size) mod EBPF_ALLOCATOR_ALIGN =? 0)
                  then _ else _).
        destruct d as [data size] eqn:Hd.
        destruct (carve_exits (block_size a)
                    (mkCarving data size (free_block a)) Hbs)
          as [s0 Hs0].
        rewrite Hfl in Hs0 |- *. rewrite Hs0. simpl.
        split; [unfold ret; eauto|].
        intros [H|(m' & r & H & Hpos)]; [congruence|].
        injection H as <- <-.
        do 3 eexists. split; [reflexivity|].
        assert (Hdata : 0 < data).
        { pose proof (Z.mod_pos_bound (m + entry_size)
                        EBPF_ALLOCATOR_ALIGN Hal).
          subst d.
          destruct (negb ((m + entry_size) mod EBPF_ALLOCATOR_ALIGN =? 0));
            injection Hd as <- <-; lia. }
        pose proof (carve_nonnull (block_size a)
                      (mkCarving data size []) _ Hbs Hdata
                      (List.Forall_nil _) Hs0) as Hnn.
        simpl in Hnn. inversion Hnn; assumption.
  - unfold alloc_pop. rewrite Hfl. unfold ret.
    split; [eauto|]. intros _. do 3 eexists. split; [reflexivity|].
    inversion Hfree; assumption.
Qed.

(** The free list of an initialised allocator holds no null pointer as
    long as the client hands none to [ebpf_allocator_free]: the host's
    addresses are not negative, and the carving only moves upwards. *)
Lemma alloc_keeps_nonnull (a a' : ebpf_allocator_t) (w w' : world) (p : Z) :
  0 < EBPF_ALLOCATOR_ALIGN -> 0 <= entry_size -> 0 < block_size a ->
  Forall (fun m => 0 <= m) (oracle w) ->
  Forall (fun q => q <> 0) (free_block a) ->
  alloc a w = Done (p, a') w' ->
  Forall (fun q => q <> 0) (free_block a') /\
  block_size a' = block_size a /\
  Forall (fun m => 0 <= m) (oracle w').
Proof.
  intros Hal Hent Hbs Hor Hfree.
  unfold ebpf_allocator_alloc.
  destruct (free_block a) as [|q rest] eqn:Hfl.
  - unfold bind, alloc_refill, bind, ebpf_malloc.
    destruct (oracle w) as [|m rest'] eqn:Horc.
    + simpl. intros H. injection H as <- <- <-.
      rewrite Hfl, Horc. auto.
    + apply Forall_cons in Hor as [Hm0 Hrest].
      destruct (Z.eqb_spec m 0) as [Hm|Hm].
      * simpl. intros H. injection H as <- <- <-. rewrite Hfl. auto.
      * rewrite (proj2 (Z.eqb_neq m 0) Hm).
        set (d := if negb ((m + entry_size) mod EBPF_ALLOCATOR_ALIGN =? 0)
                  then _ else _).
        destruct d as [data size] eqn:Hd.
        destruct (carve_exits (block_size a)
                    (mkCarving data size (free_block a)) Hbs) as [s0 Hs0].
        rewrite Hfl in Hs0 |- *. rewrite Hs0. simpl.
        intros H. injection H as <- <- <-. simpl.
        assert (Hdata : 0 < data).
        { pose proof (Z.mod_pos_bound (m + entry_size)
                        EBPF_ALLOCATOR_ALIGN Hal).
          subst d.
          destruct (negb ((m + entry_size) mod EBPF_ALLOCATOR_ALIGN =? 0));
            injection Hd as <- <-; lia. }
        pose proof (carve_nonnull (block_size a)
                      (mkCarving data size []) _ Hbs Hdata
                      (List.Forall_nil _) Hs0) as Hnn.
        simpl in Hnn. apply Forall_cons in Hnn as [_ Hnn]. auto.
  - unfold alloc_pop. rewrite Hfl. intros H. injection H as <- <- <-.
    apply Forall_cons in Hfree as [_ Hfree]. auto.
Qed.

(** [ebpf_allocator_deinit] is the one place where segments go back to
    the host: it empties the used-segment list. *)
Lemma ebpf_allocator_deinit_spec (a : ebpf_allocator_t) (w : world) :
  exists w',
    ebpf_allocator_deinit a w =
      Done (mkAlloc (free_block a) [] (block_size a)) w' /\
    oracle w' = oracle w.
Proof.
  unfold ebpf_allocator_deinit, bind.
  assert (H : forall segs w0, exists w1,
            release_segments segs w0 = Done tt w1 /\ oracle w1 = oracle w0).
  { induction segs as [|s segs IH]; intros w0; simpl.
    - exists w0. auto.
    - unfold bind, ebpf_free.
      destruct (IH (mkWorld (release s (live w0)) (oracle w0)))
        as (w1 & -> & Hw1).
      exists w1. auto. }
  destruct (H (used_segment a) w) as (w1 & -> & Hw1).
  exists w1. auto.
Qed.

(** ** Segments that fit in 32 bits

    From here on the platform is one where a pointer has at least four
    bytes, the list entry is a single link, and the page size is a
    32-bit multiple of the alignment. *)

Section Sound.

Hypothesis Hword : 4 <= EBPF_ALLOCATOR_ALIGN.
Hypothesis Hentry : entry_size = EBPF_ALLOCATOR_ALIGN.
Hypothesis Hpage : 0 < pagesize < 2 ^ 32.
Hypothesis Hpage_al : (EBPF_ALLOCATOR_ALIGN | pagesize).

Local Abbreviation ok := (block_ok EBPF_ALLOCATOR_ALIGN).
Local Abbreviation inv := (allocator_inv EBPF_ALLOCATOR_ALIGN).
Local Abbreviation fit := (fits EBPF_ALLOCATOR_ALIGN entry_size).
Local Abbreviation cinv := (carve_inv EBPF_ALLOCATOR_ALIGN entry_size).

Lemma usz_small (x : Z) : 0 <= x < 2 ^ 32 ->
  usz EBPF_ALLOCATOR_ALIGN x = x.
Proof.
  intros Hx. unfold usz. apply Z.mod_small.
  pose proof (Z.pow_le_mono_r 2 32 (8 * EBPF_ALLOCATOR_ALIGN)
                ltac:(lia) ltac:(lia)).
  lia.
Qed.

Lemma u32_small (x : Z) : 0 <= x < 2 ^ 32 -> u32 x = x.
Proof. intros Hx. unfold u32. apply Z.mod_small. assumption. Qed.

(** As long as the sum fits in 32 bits the segment has the size the
    comment of [ebpf_allocator_alloc] describes. *)
Lemma segment_size_max (bs : Z) :
  0 <= bs -> entry_size + bs + EBPF_ALLOCATOR_ALIGN < 2 ^ 32 ->
  seg_size bs = Z.max pagesize (entry_size + bs + EBPF_ALLOCATOR_ALIGN).
Proof.
  intros Hbs Hfit. unfold segment_size.
  rewrite (u32_small pagesize) by lia.
  rewrite !usz_small by lia.
  destruct (Z.ltb_spec pagesize
              (entry_size + bs + EBPF_ALLOCATOR_ALIGN)).
  - rewrite u32_small by lia. lia.
  - lia.
Qed.

Lemma carve_inv_fits (base size bs : Z) (s : carving) :
  0 < bs -> (EBPF_ALLOCATOR_ALIGN | bs) ->
  cinv base size bs s -> fit base size bs (c_data s).
Proof.
  intros Hbs [kb Hkb] ([kd Hkd] & [ks Hks] & Hsum & Hsz & Hlo & _).
  split; [exists kd; assumption|]. split; [assumption|].
  assert (kb < ks) by nia.
  assert (EBPF_ALLOCATOR_ALIGN <= c_size s - bs) by nia.
  lia.
Qed.

Lemma carve_inv_step (base size bs : Z) (s : carving) :
  0 < bs -> (EBPF_ALLOCATOR_ALIGN | bs) ->
  cinv base size bs s ->
  carve_cond bs (carve_body bs s) = true ->
  cinv base size bs (carve_body bs s).
Proof.
  intros Hbs Hdiv Hinv Hc.
  pose proof (carve_inv_fits base size bs s Hbs Hdiv Hinv) as Hfit.
  destruct Hinv as (Hd & Hs & Hsum & Hsz & Hlo & Hfl).
  unfold carve_cond, carve_body in *. simpl in *.
  rewrite u32_small in * by lia. apply Z.gtb_lt in Hc.
  unfold carve_inv. simpl.
  repeat split; try lia.
  - apply Z.divide_add_r; assumption.
  - apply Z.divide_sub_r; assumption.
  - constructor; assumption.
Qed.

Lemma carve_fits (base size bs : Z) (s s' : carving) :
  0 < bs -> (EBPF_ALLOCATOR_ALIGN | bs) ->
  cinv base size bs s ->
  do_while 32 (carve_body bs) (carve_cond bs) s = Exited s' ->
  Forall (fit base size bs) (c_free s').
Proof.
  intros Hbs Hdiv Hinv Hrun.
  pose proof (do_while_inv (carve_body bs) (carve_cond bs)
                (cinv base size bs)
                (fun s1 H1 => carve_inv_step base size bs s1 Hbs Hdiv H1)
                32 s Hinv) as H.
  rewrite Hrun in H. destruct H as (s0 & H0 & -> & _).
  simpl. constructor.
  - apply carve_inv_fits; assumption.
  - destruct H0 as (_ & _ & _ & _ & _ & Hfl). assumption.
Qed.

(** The refill on a granted, aligned segment: the segment has the
    size of [segment_size_max], it is linked on the used-segment list,
    and the block returned and the blocks left on the free list are
    aligned and lie inside it. *)
Lemma alloc_empty_spec (a : ebpf_allocator_t) (w : world) (m : Z)
    (rest : list Z) :
  0 < block_size a -> (EBPF_ALLOCATOR_ALIGN | block_size a) ->
  entry_size + block_size a + EBPF_ALLOCATOR_ALIGN < 2 ^ 32 ->
  free_block a = [] -> oracle w = m :: rest -> m <> 0 ->
  (EBPF_ALLOCATOR_ALIGN | m) ->
  let size :=
    Z.max pagesize (entry_size + block_size a + EBPF_ALLOCATOR_ALIGN) in
  exists p fl,
    alloc a w =
      Done (p, mkAlloc fl (m :: used_segment a) (block_size a))
           (mkWorld ((m, size) :: live w) rest) /\
    Forall (fit m size (block_size a)) (p :: fl).
Proof.
  intros Hbs Hdiv Hfit Hfl Hor Hm Hmal size.
  unfold ebpf_allocator_alloc, bind, alloc_refill, bind, ebpf_malloc.
  rewrite Hfl, Hor, (proj2 (Z.eqb_neq m 0) Hm).
  rewrite segment_size_max by lia. fold size.
  assert (Hmis : (m + entry_size) mod EBPF_ALLOCATOR_ALIGN = 0).
  { apply Z.mod_divide; [lia|]. rewrite Hentry.
    apply Z.divide_add_r; [assumption | apply Z.divide_refl]. }
  rewrite Hmis. cbv beta iota.
  rewrite (proj2 (Z.eqb_neq m 0) Hm).
  change (negb (0 =? 0)) with false. cbv beta iota.
  assert (Hinv : cinv m size (block_size a)
                   (mkCarving (m + entry_size) size [])).
  { unfold carve_inv. simpl. repeat split; try lia.
    - apply Z.mod_divide; [lia | assumption].
    - unfold size. apply Z.max_case; [assumption|].
      rewrite Hentry. repeat apply Z.divide_add_r;
        try assumption; apply Z.divide_refl.
    - constructor. }
  destruct (carve_exits (block_size a)
              (mkCarving (m + entry_size) size []) Hbs) as [s0 Hs0].
  pose proof (carve_fits m size (block_size a) _ _ Hbs Hdiv Hinv Hs0)
    as Hall.
  rewrite Hs0. simpl in *. unfold ret.
  exists (c_data s0), (c_free s0). split; [reflexivity | assumption].
Qed.

(** When the host refuses the segment the answer is null and the
    allocator is as it was. *)
Lemma alloc_empty_fail (a : ebpf_allocator_t) (w : world) :
  free_block a = [] ->
  oracle w = [] \/ (exists rest, oracle w = 0 :: rest) ->
  alloc a w = Done (0, a) (mkWorld (live w) (tl (oracle w))).
Proof.
  intros Hfl Hor.
  unfold ebpf_allocator_alloc, bind, alloc_refill, bind, ebpf_malloc.
  rewrite Hfl. destruct Hor as [Hor|[rest Hor]]; rewrite Hor; simpl.
  - unfold ret. destruct w as [lv orc]. simpl in *. subst orc.
    reflexivity.
  - reflexivity.
Qed.

Lemma fits_block_ok (a : ebpf_allocator_t) (w : world) (m size p : Z) :
  In m (used_segment a) -> In (m, size) (live w) ->
  fit m size (block_size a) p -> ok w a p.
Proof.
  intros Hu Hl (Hal & Hlo & Hhi). split.
  - apply Z.mod_divide; [lia | assumption].
  - exists m, size. repeat split; try assumption. lia.
Qed.

Lemma block_ok_mono (a a' : ebpf_allocator_t) (w w' : world) (q : Z) :
  incl (used_segment a) (used_segment a') ->
  incl (live w) (live w') ->
  block_size a' = block_size a ->
  ok w a q -> ok w' a' q.
Proof.
  intros Hu Hl Hbs [Hal (b & sz & Hb & Hin & Hlo & Hhi)].
  split; [assumption|]. exists b, sz. rewrite Hbs. auto.
Qed.

(** [ebpf_allocator_alloc] keeps the free list made of good blocks,
    returns a good block whenever it returns one, and takes nothing
    away from the blocks that are in use. *)
Lemma alloc_sound (a a' : ebpf_allocator_t) (w w' : world) (p : Z) :
  0 < block_size a -> (EBPF_ALLOCATOR_ALIGN | block_size a) ->
  entry_size + block_size a + EBPF_ALLOCATOR_ALIGN < 2 ^ 32 ->
  Forall (fun m => (EBPF_ALLOCATOR_ALIGN | m)) (oracle w) ->
  inv w a ->
  alloc a w = Done (p, a') w' ->
  inv w' a' /\ (p <> 0 -> ok w' a' p) /\
  block_size a' = block_size a /\
  Forall (fun m => (EBPF_ALLOCATOR_ALIGN | m)) (oracle w') /\
  (forall q, ok w a q -> ok w' a' q).
Proof.
  intros Hbs Hdiv Hfit Hor Hinv Hrun.
  destruct (free_block a) as [|q fl] eqn:Hfl.
  - assert (Hnull : forall rest,
              alloc a w = Done (0, a) (mkWorld (live w) rest) ->
              Forall (fun m => (EBPF_ALLOCATOR_ALIGN | m)) rest ->
              inv w' a' /\ (p <> 0 -> ok w' a' p) /\
              block_size a' = block_size a /\
              Forall (fun m => (EBPF_ALLOCATOR_ALIGN | m)) (oracle w') /\
              (forall q, ok w a q -> ok w' a' q)).
    { intros rest Heq Hrest. rewrite Heq in Hrun.
      injection Hrun as <- <- <-.
      split; [|split; [|split; [|split]]].
      - unfold allocator_inv. rewrite Hfl. constructor.
      - intros H; contradiction.
      - reflexivity.
      - assumption.
      - intros q. apply block_ok_mono; simpl; auto using incl_refl. }
    destruct (oracle w) as [|m rest] eqn:Horc.
    + apply (Hnull []); [|constructor].
      rewrite alloc_empty_fail by auto. rewrite Horc. reflexivity.
    + apply Forall_cons in Hor as [Hmal Hrest].
      destruct (Z.eq_dec m 0) as [->|Hm].
      * apply (Hnull rest); [|assumption].
        rewrite alloc_empty_fail by eauto. rewrite Horc. reflexivity.
      * destruct (alloc_empty_spec a w m rest Hbs Hdiv Hfit Hfl Horc
                    Hm Hmal) as (p' & fl' & Heq & Hall).
        rewrite Heq in Hrun. injection Hrun as <- <- <-.
        assert (Hok : Forall
          (ok (mkWorld ((m, Z.max pagesize (entry_size + block_size a
                             + EBPF_ALLOCATOR_ALIGN)) :: live w) rest)
              (mkAlloc fl' (m :: used_segment a) (block_size a)))
          (p' :: fl')).
        { eapply List.Forall_impl; [|exact Hall]. intros x Hx.
          eapply fits_block_ok; [| |exact Hx]; simpl; auto. }
        apply Forall_cons in Hok as [Hp Hfl'].
        split; [|split; [|split; [|split]]]; simpl; auto.
        intros q. apply block_ok_mono; simpl; auto using incl_tl, incl_refl.
  - unfold ebpf_allocator_alloc, alloc_pop in Hrun. rewrite Hfl in Hrun.
    injection Hrun as <- <- <-. unfold allocator_inv in Hinv.
    rewrite Hfl in Hinv. apply Forall_cons in Hinv as [Hq Hrest].
    split; [|split; [|split; [|split]]]; simpl; auto.
Qed.

(** A good block handed back keeps the free list good. *)
Lemma free_sound (a a' : ebpf_allocator_t) (w w' : world) (ptr : Z) :
  inv w a -> ok w a ptr ->
  ebpf_allocator_free a ptr w = Done a' w' ->
  inv w' a' /\ w' = w /\ forall q, ok w a q -> ok w' a' q.
Proof.
  intros Hinv Hptr Hrun. apply free_done in Hrun as (_ & -> & ->).
  assert (Hmono : forall q, ok w a q ->
            ok w (mkAlloc (ptr :: free_block a) (used_segment a)
                    (block_size a)) q).
  { intros q. apply block_ok_mono; simpl; auto using incl_refl. }
  split; [|split; [reflexivity | assumption]].
  unfold allocator_inv. simpl. constructor; [auto|].
  eapply List.Forall_impl; [|exact Hinv]. assumption.
Qed.

Lemma prealloc_loop_sound (n : nat) :
  forall (a a' : ebpf_allocator_t) (w w' : world) (e : Z),
  0 < block_size a -> (EBPF_ALLOCATOR_ALIGN | block_size a) ->
  entry_size + block_size a + EBPF_ALLOCATOR_ALIGN < 2 ^ 32 ->
  Forall (fun m => (EBPF_ALLOCATOR_ALIGN | m)) (oracle w) ->
  inv w a ->
  prealloc_loop EBPF_ALLOCATOR_ALIGN entry_size pagesize n a w =
    Done (e, a') w' ->
  inv w' a' /\ forall q, ok w a q -> ok w' a' q.
Proof.
  induction n as [|n IH]; intros a a' w w' e Hbs Hdiv Hfit Hor Hinv Hrun.
  - injection Hrun as <- <- <-. auto.
  - simpl in Hrun. unfold bind in Hrun.
    destruct (alloc a w) as [[tmp a1] w1|f] eqn:Hal; [|discriminate].
    destruct (alloc_sound a a1 w w1 tmp Hbs Hdiv Hfit Hor Hinv Hal)
      as (Hinv1 & Hok1 & Hbs1 & Hor1 & Hmono1).
    destruct (Z.eqb_spec tmp 0) as [Htmp|Htmp].
    + injection Hrun as <- <- <-. auto.
    + rewrite (free_linked a1 tmp w1 Htmp) in Hrun.
      set (a2 := mkAlloc (tmp :: free_block a1) (used_segment a1)
                   (block_size a1)) in Hrun.
      destruct (free_sound a1 a2 w1 w1 tmp Hinv1 (Hok1 Htmp)
                  (free_linked a1 tmp w1 Htmp))
        as (Hinv2 & _ & Hmono2).
      apply IH in Hrun as [Hinv' Hmono']; simpl; try rewrite Hbs1; auto.
Qed.

End Sound.

(** ** What [ebpf_allocator_prealloc] does with its blocks *)

(** The first null from [ebpf_allocator_alloc] ends the loop with
    [ENOMEM]. *)
Lemma prealloc_loop_enomem (n : nat) (a a1 : ebpf_allocator_t)
    (w w1 : world) :
  alloc a w = Done (0, a1) w1 ->
  prealloc_loop EBPF_ALLOCATOR_ALIGN entry_size pagesize (S n) a w =
    Done (ENOMEM, a1) w1.
Proof. intros H. simpl. unfold bind. rewrite H. reflexivity. Qed.

(** Once a block waits on the free list every further turn pops it and
    pushes it back: the host is not asked again, however many blocks
    are wanted. *)
Lemma prealloc_loop_recycles (n : nat) (a : ebpf_allocator_t) (w : world)
    (p : Z) (rest : list Z) :
  free_block a = p :: rest -> p <> 0 ->
  prealloc_loop EBPF_ALLOCATOR_ALIGN entry_size pagesize n a w = Done (0, a) w.
Proof.
  intros Hfl Hp. induction n as [|n IH]; [reflexivity|].
  simpl. unfold bind, ebpf_allocator_alloc, alloc_pop. rewrite Hfl.
  unfold ret at 1. rewrite (proj2 (Z.eqb_neq p 0) Hp).
  rewrite (free_linked _ p w Hp). simpl.
  replace (mkAlloc (p :: rest) (used_segment a) (block_size a)) with a
    by (destruct a; simpl in *; congruence).
  exact IH.
Qed.

End AllocatorFacts.

(** * The allocator on an LP64 host

    Pointers and list entries of eight bytes, pages of 4096 bytes; the
    host grants a segment at address 65536. *)

(** C7: asked for two blocks of 4096 bytes, [ebpf_allocator_prealloc]
    answers [0] and leaves one block on the free list; the second turn of
    its loop has taken the block of the first turn again, and the second
    segment the host had to offer was never asked for. *)
Theorem prealloc_leaves_one_block :
  ebpf_allocator_init 8 (mkAlloc [] [] 0) 4096 (mkWorld [] [65536; 131072]) =
    Done (0, mkAlloc [] [] 4096) (mkWorld [] [65536; 131072]) /\
  ebpf_allocator_prealloc 8 8 4096 (mkAlloc [] [] 4096) 2
    (mkWorld [] [65536; 131072]) =
    Done (0, mkAlloc [65544] [65536] 4096)
         (mkWorld [(65536, 4112)] [131072]).
Proof. split; vm_compute; reflexivity. Qed.

(** C4: for a block size of [2^32 - 8] the sum of header, block and
    alignment is [2^32 + 8]; stored in the 32-bit [size] it becomes [8],
    and that is the size of the segment [ebpf_allocator_alloc] asks the
    host for. *)
Theorem alloc_segment_size_wraps :
  ebpf_allocator_init 8 (mkAlloc [] [] 0) 4294967288 (mkWorld [] [65536]) =
    Done (0, mkAlloc [] [] 4294967288) (mkWorld [] [65536]) /\
  Z.max 4096 (8 + 4294967288 + 8) = 4294967304 /\
  segment_size 8 8 4096 4294967288 = 8 /\
  live match ebpf_allocator_alloc 8 8 4096 (mkAlloc [] [] 4294967288)
               (mkWorld [] [65536]) with
       | Done _ w' => w'
       | Crash _ => mkWorld [] []
       end = [(65536, 8)].
Proof. repeat split; vm_compute; reflexivity. Qed.

(** C1: the block that call returns starts at the end of the segment of
    eight bytes, so its [2^32 - 8] bytes lie in no segment of the
    used-segment list. *)
Theorem alloc_block_outside_segment :
  exists a' w',
    ebpf_allocator_alloc 8 8 4096 (mkAlloc [] [] 4294967288)
      (mkWorld [] [65536]) = Done (65544, a') w' /\
    used_segment a' = [65536] /\ live w' = [(65536, 8)] /\
    ~ in_segment w' a' 65544.
Proof.
  eexists _, _. split; [vm_compute; reflexivity|]. simpl.
  split; [reflexivity|]. split; [reflexivity|].
  intros (base & sz & Hb & Hl & Hlo & Hhi). simpl in *.
  destruct Hl as [Hl|[]]. injection Hl as <- <-. lia.
Qed.

(** The same block size on an ILP32 host (pointers of four bytes): the
    sum wraps to [4] already in [size_t], the segment keeps the page size,
    and the block of [2^32 - 4] bytes does not fit in it either. *)
Lemma ilp32_block_outside_segment :
  exists a' w',
    ebpf_allocator_alloc 4 4 4096 (mkAlloc [] [] 4294967292)
      (mkWorld [] [65536]) = Done (65540, a') w' /\
    live w' = [(65536, 4096)] /\
    ~ in_segment w' a' 65540.
Proof.
  eexists _, _. split; [vm_compute; reflexivity|]. simpl.
  split; [reflexivity|].
  intros (base & sz & Hb & Hl & Hlo & Hhi). simpl in *.
  destruct Hl as [Hl|[]]. injection Hl as <- <-. lia.
Qed.

(** [alloc_sound] needs the host to hand out aligned segments: [size] is
    never reduced by the header that [data] skips, and on a segment that
    starts four bytes off the alignment the last block of eight bytes
    ends four bytes behind the segment. *)
Lemma alloc_misaligned_segment_overrun :
  exists p fl w',
    ebpf_allocator_alloc 8 8 4096 (mkAlloc [] [] 8) (mkWorld [] [65540]) =
      Done (p, mkAlloc fl [65540] 8) w' /\
    live w' = [(65540, 4096)] /\
    p + 8 = 65540 + 4096 + 4.
Proof.
  eexists _, _, _. split; [vm_compute; reflexivity|].
  split; reflexivity.
Qed.

(** * Maps: chains and buckets *)

Lemma chain_find_store (key value : bytes) (chain : list (bytes * bytes)) :
  is_Some (chain_find key chain) ->
  chain_find key (chain_store key value chain) = Some value.
Proof.
  induction chain as [|[k v] rest IH]; simpl; intros [x Hx]; [done|].
  destruct (decide (k = key)) as [->|Hne]; simpl.
  - by rewrite decide_True.
  - rewrite decide_False by done. apply IH. eauto.
Qed.

Lemma chain_find_store_ne (key key' value : bytes)
    (chain : list (bytes * bytes)) :
  key <> key' ->
  chain_find key' (chain_store key value chain) = chain_find key' chain.
Proof.
  intros Hne. induction chain as [|[k v] rest IH]; simpl; [done|].
  destruct (decide (k = key)) as [->|Hk]; simpl.
  - by rewrite !decide_False.
  - destruct (decide (k = key')); [done | apply IH].
Qed.

Lemma chain_store_length (key value : bytes) (chain : list (bytes * bytes)) :
  length (chain_store key value chain) = length chain.
Proof.
  induction chain as [|[k v] rest IH]; simpl; [done|].
  destruct (decide (k = key)); simpl; [done | by rewrite IH].
Qed.

Lemma chain_store_keys (key value : bytes) (chain : list (bytes * bytes))
    (k v : bytes) :
  (k, v) ∈ chain_store key value chain -> exists v', (k, v') ∈ chain.
Proof.
  induction chain as [|[k0 v0] rest IH]; simpl; [intros H; by inversion H|].
  destruct (decide (k0 = key)) as [->|Hne].
  - intros [H|H]%elem_of_cons.
    + injection H as -> ->. exists v0. left.
    + exists v. by right.
  - intros [H|H]%elem_of_cons.
    + injection H as -> ->. exists v0. left.
    + destruct (IH H) as [v' Hv']. exists v'. by right.
Qed.

Lemma chain_remove_subset (key : bytes) (chain : list (bytes * bytes))
    (kv : bytes * bytes) :
  kv ∈ chain_remove key chain -> kv ∈ chain.
Proof.
  induction chain as [|[k0 v0] rest IH]; simpl; [done|].
  destruct (decide (k0 = key)).
  - intros H. by right.
  - intros [->|H]%elem_of_cons; [left | right; auto].
Qed.

Lemma chain_remove_length (key : bytes) (chain : list (bytes * bytes)) :
  is_Some (chain_find key chain) ->
  S (length (chain_remove key chain)) = length chain.
Proof.
  induction chain as [|[k v] rest IH]; simpl; intros [x Hx]; [done|].
  destruct (decide (k = key)); simpl; [done|].
  rewrite IH; eauto.
Qed.

Lemma concat_insert_length {A : Type} (l : list (list A)) (i : nat)
    (c c' : list A) :
  l !! i = Some c ->
  (length (concat (<[i:=c']> l)) + length c =
   length (concat l) + length c')%nat.
Proof.
  revert i. induction l as [|x l IH]; intros [|i] H; simplify_eq/=.
  - rewrite !length_app. lia.
  - rewrite !length_app. specialize (IH i H). lia.
Qed.

Lemma concat_replicate_nil {A : Type} (n : nat) :
  concat (replicate n (@nil A)) = [].
Proof. induction n; simpl; auto. Qed.

Lemma omap_id_length {A : Type} (l : list (option A)) :
  (length (omap id l) <= length l)%nat.
Proof.
  induction l as [|[x|] l IH]; cbn in *; lia.
Qed.

(** A hypothesis on whether the key is held that the lookup refutes. *)
Ltac contradict_has :=
  match goal with
  | H : ~ (exists _, _) |- _ => exfalso; apply H; eexists; reflexivity
  | H : exists _, (ENOENT, None) = _ |- _ => destruct H; discriminate
  end.

Section MapFacts.

Variable hash : bytes -> Z.

Local Abbreviation lookup := (ebpf_map_lookup_elem_from_user hash).
Local Abbreviation update := (ebpf_map_update_elem_from_user hash).
Local Abbreviation delete := (ebpf_map_delete_elem_from_user hash).
Local Abbreviation index := (bucket_index hash).

Lemma with_state_same (m : ebpf_map) : with_state m (m_state m) = m.
Proof. by destruct m. Qed.

Lemma bucket_index_lt (buckets : list (list (bytes * bytes)))
    (key : bytes) :
  (0 < length buckets)%nat -> (index buckets key < length buckets)%nat.
Proof.
  intros Hlen. unfold bucket_index.
  pose proof (Z.mod_pos_bound (hash key) (Z.of_nat (length buckets))
                ltac:(lia)).
  lia.
Qed.

Lemma bucket_index_insert (buckets : list (list (bytes * bytes)))
    (i : nat) (c : list (bytes * bytes)) (key : bytes) :
  index (<[i:=c]> buckets) key = index buckets key.
Proof. unfold bucket_index. by rewrite length_insert. Qed.

Lemma bucket_at_insert (buckets : list (list (bytes * bytes)))
    (i j : nat) (c : list (bytes * bytes)) :
  (i < length buckets)%nat ->
  bucket_at (<[i:=c]> buckets) j =
    if decide (i = j) then c else bucket_at buckets j.
Proof.
  intros Hi. unfold bucket_at. destruct (decide (i = j)) as [->|Hne].
  - by rewrite list_lookup_insert_eq.
  - by rewrite list_lookup_insert_ne.
Qed.

Lemma bucket_at_lookup (buckets : list (list (bytes * bytes))) (i : nat) :
  (i < length buckets)%nat -> buckets !! i = Some (bucket_at buckets i).
Proof.
  intros Hi. unfold bucket_at.
  destruct (lookup_lt_is_Some_2 buckets i Hi) as [c ->]. done.
Qed.

Lemma le_index_nonneg (key : bytes) : 0 <= le_index key.
Proof. induction key as [|b key IH]; simpl; lia. Qed.

Lemma hashtable_lookup_insert (m m' : ebpf_map)
    (buckets : list (list (bytes * bytes))) (c : list (bytes * bytes))
    (key : bytes) :
  (0 < length buckets)%nat ->
  hashtable_map_lookup_elem hash m'
    (<[index buckets key := c]> buckets) key =
  match chain_find key c with
  | Some v => (0, Some v)
  | None => (ENOENT, None)
  end.
Proof.
  intros Hlen. unfold hashtable_map_lookup_elem.
  rewrite bucket_index_insert, bucket_at_insert
    by (by apply bucket_index_lt).
  by rewrite decide_True.
Qed.

(** C2: on an initialised map, NOEXIST fails with [EEXIST] on a key that
    is held and succeeds on one that is not; EXIST fails with [ENOENT] on
    a key that is not held and succeeds on one that is; ANY inserts or
    overwrites and succeeds; in each case that succeeds, capacity
    permitting, the key then maps to the new value. *)
Theorem update_flags_spec (m : ebpf_map) (key value : bytes) :
  map_wf hash m ->
  (map_has hash m key -> update m key value EBPF_NOEXIST = (EEXIST, m)) /\
  (~ map_has hash m key -> capacity_permits hash m key ->
   exists m', update m key value EBPF_NOEXIST = (0, m') /\
              lookup m' key = (0, Some value)) /\
  (~ map_has hash m key -> key_in_range m key ->
   update m key value EBPF_EXIST = (ENOENT, m)) /\
  (map_has hash m key ->
   exists m', update m key value EBPF_EXIST = (0, m') /\
              lookup m' key = (0, Some value)) /\
  (capacity_permits hash m key ->
   exists m', update m key value EBPF_ANY = (0, m') /\
              lookup m' key = (0, Some value)).
Proof.
  intros [Hmax Hwf].
  unfold capacity_permits, key_in_range, map_has,
    ebpf_map_update_elem_from_user, ebpf_map_lookup_elem_from_user.
  pose proof (with_state_same m) as Hsame.
  destruct (m_state m) as [slots|buckets|] eqn:Hst; [| |done].
  - (* array *)
    destruct Hwf as [_ Hlen].
    pose proof (le_index_nonneg key) as Hnn.
    unfold array_map_update_elem, array_map_lookup_elem. simpl.
    destruct (Z.leb_spec (max_entries m) (le_index key)) as [Hout|Hin].
    + repeat split; try (intros; lia); intros [v Hv]; discriminate.
    + assert (Hi : (Z.to_nat (le_index key) < length slots)%nat) by lia.
      destruct (slots !! Z.to_nat (le_index key)) as [[v|]|] eqn:Hslot;
        [| |apply lookup_ge_None in Hslot; lia].
      all: repeat split; intros;
        first [ by rewrite Hsame
              | contradict_has
              | eexists; split; [reflexivity|]; simpl;
                rewrite (proj2 (Z.leb_gt _ _) Hin), list_lookup_insert_eq
                  by done; reflexivity ].
  - (* hash table *)
    destruct Hwf as (_ & Hlen & Hcount & Hplace).
    unfold hashtable_map_update_elem. simpl.
    change (hashtable_map_lookup_elem hash m buckets key) with
      (match chain_find key (bucket_at buckets (index buckets key)) with
       | Some v => (0, Some v)
       | None => (ENOENT, None)
       end).
    destruct (chain_find key (bucket_at buckets (index buckets key)))
      as [v|] eqn:Hfind.
    + repeat split; intros;
        first [ by rewrite Hsame
              | contradict_has
              | eexists; split; [reflexivity|]; simpl;
                rewrite (hashtable_lookup_insert m) by done;
                rewrite chain_find_store by (rewrite Hfind; eauto); done ].
    + assert (Hroom :
        (exists v : bytes, (ENOENT, @None bytes) = (0, Some v)) \/
        hashtable_count buckets < max_entries m ->
        (max_entries m <=? hashtable_count buckets) = false).
      { intros [[v Hv]|H]; [discriminate | by apply Z.leb_gt]. }
      repeat split; intros;
        first [ by rewrite Hsame
              | contradict_has
              | rewrite Hroom by done;
                eexists; split; [reflexivity|]; simpl;
                rewrite (hashtable_lookup_insert m) by done; simpl;
                by rewrite decide_True ].
Qed.

(** ** Initialised maps stay initialised *)

Lemma hashtable_count_insert (buckets : list (list (bytes * bytes)))
    (i : nat) (c : list (bytes * bytes)) :
  (i < length buckets)%nat ->
  hashtable_count (<[i:=c]> buckets) =
    hashtable_count buckets - Z.of_nat (length (bucket_at buckets i))
    + Z.of_nat (length c).
Proof.
  intros Hi. unfold hashtable_count.
  pose proof (concat_insert_length buckets i (bucket_at buckets i) c
                (bucket_at_lookup buckets i Hi)).
  lia.
Qed.

Lemma placement_insert (buckets : list (list (bytes * bytes))) (i : nat)
    (c : list (bytes * bytes)) :
  (i < length buckets)%nat ->
  (forall j k v, (k, v) ∈ bucket_at buckets j -> index buckets k = j) ->
  (forall k v, (k, v) ∈ c -> index buckets k = i) ->
  forall j k v, (k, v) ∈ bucket_at (<[i:=c]> buckets) j ->
                index (<[i:=c]> buckets) k = j.
Proof.
  intros Hi Hold Hnew j k v. rewrite bucket_index_insert, bucket_at_insert
    by done.
  destruct (decide (i = j)) as [<-|Hne]; eauto.
Qed.

Lemma update_wf (m : ebpf_map) (key value : bytes) (flag : update_flag) :
  map_wf hash m -> map_wf hash (update m key value flag).2.
Proof.
  intros [Hmax Hwf]. unfold ebpf_map_update_elem_from_user.
  destruct (m_state m) as [slots|buckets|] eqn:Hst; [| |done].
  - destruct Hwf as [Hty Hlen]. unfold array_map_update_elem.
    destruct (max_entries m <=? le_index key);
      [|destruct (slots !! Z.to_nat (le_index key)) as [[?|]|], flag];
      split; simpl; rewrite ?length_insert; done.
  - destruct Hwf as (Hty & Hlen & Hcount & Hplace).
    unfold hashtable_map_update_elem.
    pose proof (bucket_index_lt buckets key Hlen) as Hi.
    set (i := index buckets key) in *.
    assert (Hstore : map_wf hash (with_state m (HashState
              (<[i:=chain_store key value (bucket_at buckets i)]> buckets)))).
    { split; [done|]. simpl. rewrite length_insert.
      split; [done|]. split; [done|]. split.
      - rewrite hashtable_count_insert, chain_store_length by done. lia.
      - apply placement_insert; [done..|]. intros k v Hin.
        apply chain_store_keys in Hin as [v' Hin]. eauto. }
    assert (Hsame : map_wf hash (with_state m (HashState buckets))).
    { split; [done|]. simpl. done. }
    destruct (chain_find key (bucket_at buckets i)) as [v|], flag;
      try done.
    all: destruct (Z.leb_spec (max_entries m) (hashtable_count buckets));
      [done|].
    all: split; [done|]; simpl; rewrite length_insert;
      split; [done|]; split; [done|]; split;
      [ rewrite hashtable_count_insert by done; simpl length; lia
      | apply placement_insert; [done..|];
        intros k v [Heq|Hin]%elem_of_cons; [by injection Heq as -> -> | eauto] ].
Qed.

Lemma delete_wf (m : ebpf_map) (key : bytes) :
  map_wf hash m -> map_wf hash (delete m key).2.
Proof.
  intros [Hmax Hwf]. unfold ebpf_map_delete_elem_from_user.
  destruct (m_state m) as [slots|buckets|] eqn:Hst; [| |done].
  - destruct Hwf as [Hty Hlen]. unfold array_map_delete_elem.
    destruct (max_entries m <=? le_index key);
      [|destruct (slots !! Z.to_nat (le_index key)) as [[?|]|]];
      split; simpl; rewrite ?length_insert; done.
  - destruct Hwf as (Hty & Hlen & Hcount & Hplace).
    unfold hashtable_map_delete_elem.
    pose proof (bucket_index_lt buckets key Hlen) as Hi.
    set (i := index buckets key) in *.
    destruct (chain_find key (bucket_at buckets i)) as [v|] eqn:Hfind.
    + split; [done|]. simpl. rewrite length_insert.
      split; [done|]. split; [done|]. split.
      * rewrite hashtable_count_insert by done.
        pose proof (chain_remove_length key (bucket_at buckets i)
                      ltac:(rewrite Hfind; eauto)).
        lia.
      * apply placement_insert; [done..|]. intros k v' Hin.
        apply chain_remove_subset in Hin. eauto.
    + split; [done|]. simpl. done.
Qed.

Lemma map_wf_count (m : ebpf_map) :
  map_wf hash m -> ebpf_map_count m <= max_entries m.
Proof.
  intros [Hmax Hwf]. unfold ebpf_map_count.
  destruct (m_state m) as [slots|buckets|]; [| |done].
  - destruct Hwf as [_ Hlen]. unfold array_count.
    pose proof (omap_id_length slots). lia.
  - by destruct Hwf as (_ & _ & Hcount & _).
Qed.

Lemma update_max_entries (m : ebpf_map) (key value : bytes)
    (flag : update_flag) :
  max_entries (update m key value flag).2 = max_entries m.
Proof.
  unfold ebpf_map_update_elem_from_user.
  destruct (m_state m); [| |done].
  - by destruct (array_map_update_elem _ _ _ _ _).
  - by destruct (hashtable_map_update_elem _ _ _ _ _ _).
Qed.

Lemma delete_max_entries (m : ebpf_map) (key : bytes) :
  max_entries (delete m key).2 = max_entries m.
Proof.
  unfold ebpf_map_delete_elem_from_user.
  destruct (m_state m); [| |done].
  - by destruct (array_map_delete_elem _ _ _).
  - by destruct (hashtable_map_delete_elem _ _ _ _).
Qed.

(** Whatever the user does, the map stays initialised, keeps its
    capacity and never holds more than [max_entries] elements. *)
Lemma map_run_wf (ops : list map_op) (m : ebpf_map) :
  map_wf hash m ->
  map_wf hash (map_run hash m ops).2 /\
  max_entries (map_run hash m ops).2 = max_entries m /\
  ebpf_map_count (map_run hash m ops).2 <= max_entries m.
Proof.
  revert m. induction ops as [|op ops IH]; intros m Hwf; simpl.
  - auto using map_wf_count.
  - destruct (map_step hash m op) as [e m1] eqn:Hstep.
    assert (Hwf1 : map_wf hash m1 /\ max_entries m1 = max_entries m).
    { destruct op as [k v f|k]; simpl in Hstep.
      - pose proof (update_wf m k v f Hwf).
        pose proof (update_max_entries m k v f).
        by rewrite Hstep in *.
      - pose proof (delete_wf m k Hwf).
        pose proof (delete_max_entries m k).
        by rewrite Hstep in *. }
    destruct Hwf1 as [Hwf1 Hmax1].
    specialize (IH m1 Hwf1).
    destruct (map_run hash m1 ops) as [es m2]. simpl in *.
    rewrite <- Hmax1. done.
Qed.

(** ** Filling a hash table *)

(** A key that is not held goes in as long as there is room; afterwards
    the table holds one element more, the new key and the keys held
    before. *)
Lemma hashtable_insert_new (m : ebpf_map)
    (buckets : list (list (bytes * bytes))) (key value : bytes) :
  map_wf hash m -> m_state m = HashState buckets ->
  ~ map_has hash m key -> ebpf_map_count m < max_entries m ->
  exists m',
    update m key value EBPF_ANY = (0, m') /\
    (exists buckets', m_state m' = HashState buckets') /\
    ebpf_map_count m' = ebpf_map_count m + 1 /\
    forall k, map_has hash m' k <-> k = key \/ map_has hash m k.
Proof.
  intros [Hmax Hwf] Hst Habs Hroom.
  unfold map_has, ebpf_map_count, ebpf_map_update_elem_from_user,
    ebpf_map_lookup_elem_from_user in *.
  rewrite Hst in *. destruct Hwf as (Hty & Hlen & Hcount & Hplace).
  unfold hashtable_map_update_elem, hashtable_map_lookup_elem in *.
  pose proof (bucket_index_lt buckets key Hlen) as Hi.
  destruct (chain_find key (bucket_at buckets (index buckets key)))
    as [v|] eqn:Hfind; [exfalso; eauto|].
  rewrite (proj2 (Z.leb_gt _ _) Hroom).
  eexists. split; [reflexivity|]. simpl.
  split; [eauto|]. split.
  - rewrite hashtable_count_insert by done. simpl length. lia.
  - intros k. rewrite bucket_index_insert, bucket_at_insert by done.
    destruct (decide (index buckets key = index buckets k)) as [Heq|Hne].
    + simpl. destruct (decide (key = k)) as [->|Hk].
      * split; eauto.
      * rewrite <- Heq. split; [eauto | intros [->|H]; done].
    + split; [eauto|]. intros [->|H]; done.
Qed.

Lemma hashtable_insert_all : forall (kvs : list (bytes * bytes))
    (m : ebpf_map) (buckets : list (list (bytes * bytes))),
  map_wf hash m -> m_state m = HashState buckets ->
  NoDup kvs.*1 -> (forall k, k ∈ kvs.*1 -> ~ map_has hash m k) ->
  ebpf_map_count m + Z.of_nat (length kvs) <= max_entries m ->
  exists m',
    map_run hash m (map (fun kv => Update kv.1 kv.2 EBPF_ANY) kvs) =
      (replicate (length kvs) 0, m') /\
    (exists buckets', m_state m' = HashState buckets') /\
    ebpf_map_count m' = ebpf_map_count m + Z.of_nat (length kvs) /\
    forall k, map_has hash m' k <-> k ∈ kvs.*1 \/ map_has hash m k.
Proof.
  induction kvs as [|[k v] kvs IH]; intros m buckets Hwf Hst Hnd Hnew Hroom.
  - exists m. simpl. split; [done|]. split; [eauto|]. split; [lia|].
    intros k. split; [by right|].
    intros [H|H]; [by apply elem_of_nil in H | done].
  - simpl in *. apply NoDup_cons in Hnd as [Hk Hnd].
    destruct (hashtable_insert_new m buckets k v Hwf Hst) as
      (m1 & Hup & [buckets1 Hst1] & Hcount1 & Hhas1).
    { apply Hnew. left. }
    { lia. }
    rewrite Hup.
    pose proof (update_wf m k v EBPF_ANY Hwf) as Hwf1.
    pose proof (update_max_entries m k v EBPF_ANY) as Hmax1.
    rewrite Hup in Hwf1, Hmax1. simpl in Hwf1, Hmax1.
    destruct (IH m1 buckets1 Hwf1 Hst1 Hnd) as
      (m2 & Hrun & Hst2 & Hcount2 & Hhas2).
    { intros k' Hk' [->|H]%Hhas1; [done|].
      apply (Hnew k'); [by right | done]. }
    { lia. }
    rewrite Hrun. exists m2. repeat split; try done; try lia.
    + intros [H|[->|H]%Hhas1]%Hhas2; [left; by right | left; left | by right].
    + intros [[->|H]%elem_of_cons|H]; apply Hhas2.
      * right. apply Hhas1. by left.
      * by left.
      * right. apply Hhas1. by right.
Qed.

(** What [ebpf_map_init] leaves when it succeeds. *)
Lemma ebpf_map_init_ok (bucket_bits : Z -> nat) (attr : ebpf_map_attr)
    (m : ebpf_map) (w w' : world) :
  ebpf_map_init bucket_bits attr w = Done (0, Some m) w' ->
  0 < ma_max_entries attr ->
  map_wf hash m /\ max_entries m = ma_max_entries attr /\
  m_type m = ma_type attr /\ ebpf_map_count m = 0 /\
  forall k, ~ map_has hash m k.
Proof.
  unfold ebpf_map_init, bind. intros Hinit Hpos.
  destruct (attr_valid attr) eqn:Hvalid; simpl in Hinit; [|discriminate].
  destruct (ebpf_malloc _ w) as [storage w1|]; [|discriminate].
  destruct (storage =? 0); [discriminate|].
  injection Hinit as <- <-.
  unfold attr_valid in Hvalid. unfold map_wf, map_has, ebpf_map_count,
    ebpf_map_lookup_elem_from_user, backend_init. simpl.
  destruct (ma_type attr); try discriminate; simpl.
  - repeat split; try done.
    + rewrite length_replicate. lia.
    + unfold array_count. induction (Z.to_nat _); simpl; auto.
    + intros k [v Hv]. unfold array_map_lookup_elem in Hv. simpl in Hv.
      destruct (_ <=? _); [discriminate|].
      destruct (replicate _ _ !! _) as [[?|]|] eqn:Hl; try discriminate.
      apply lookup_replicate in Hl as [? _]. discriminate.
  - assert (Hnil : forall n i, bucket_at (replicate n []) i = []).
    { intros n i. unfold bucket_at.
      destruct (replicate n [] !! i) eqn:Hl; [|done].
      by apply lookup_replicate in Hl as [-> _]. }
    unfold hashtable_count. rewrite concat_replicate_nil.
    repeat split; try done.
    + rewrite length_replicate. apply Nat.neq_0_lt_0, Nat.pow_nonzero. lia.
    + simpl. lia.
    + intros i k v. rewrite Hnil. intros H. by apply elem_of_nil in H.
    + intros k [v Hv]. unfold hashtable_map_lookup_elem in Hv.
      rewrite Hnil in Hv. discriminate.
Qed.

(** C3: a hash table created with [max_entries = N] takes [N] distinct
    new keys with flag ANY, each update answering [0]; one more new key is
    answered [EBUSY]; and whatever updates and deletions follow, the
    table never holds more than [max_entries] elements. *)
Theorem hashtable_capacity (bucket_bits : Z -> nat) (attr : ebpf_map_attr)
    (m : ebpf_map) (w w' : world) (kvs : list (bytes * bytes))
    (k v : bytes) :
  ma_type attr = EBPF_MAP_TYPE_HASHTABLE ->
  ma_max_entries attr = Z.of_nat (length kvs) ->
  ebpf_map_init bucket_bits attr w = Done (0, Some m) w' ->
  NoDup kvs.*1 -> k ∉ kvs.*1 ->
  (exists m',
     map_run hash m (map (fun kv => Update kv.1 kv.2 EBPF_ANY) kvs) =
       (replicate (length kvs) 0, m') /\
     (update m' k v EBPF_ANY).1 = EBUSY) /\
  (forall ops,
     ebpf_map_count (map_run hash m ops).2 <= ma_max_entries attr).
Proof.
  intros Hty Hn Hinit Hnd Hk.
  assert (Hpos : 0 < ma_max_entries attr).
  { unfold ebpf_map_init in Hinit.
    destruct (attr_valid attr) eqn:Hvalid; [|discriminate].
    unfold attr_valid in Hvalid.
    apply andb_prop in Hvalid as [_ Hnz]. apply negb_true_iff in Hnz.
    apply Z.eqb_neq in Hnz. lia. }
  destruct (ebpf_map_init_ok bucket_bits attr m w w' Hinit Hpos) as
    (Hwf & Hmax & Hmty & Hcount & Hempty).
  assert (Hst : exists buckets, m_state m = HashState buckets).
  { destruct Hwf as [_ Hwf]. rewrite Hmty, Hty in Hwf.
    destruct (m_state m) as [slots|buckets|]; [|eauto|done].
    by destruct Hwf. }
  destruct Hst as [buckets Hst]. split.
  - destruct (hashtable_insert_all kvs m buckets Hwf Hst Hnd) as
      (m' & Hrun & [buckets' Hst'] & Hcount' & Hhas').
    { intros k' _. apply Hempty. }
    { lia. }
    exists m'. split; [done|].
    pose proof (map_run_wf (map (fun kv => Update kv.1 kv.2 EBPF_ANY) kvs)
                  m Hwf) as (Hwf' & Hmax' & _).
    rewrite Hrun in Hwf', Hmax'. simpl in Hwf', Hmax'.
    assert (Habs : ~ map_has hash m' k).
    { intros [H|H]%Hhas'; [done | by apply (Hempty k)]. }
    unfold ebpf_map_update_elem_from_user, map_has,
      ebpf_map_lookup_elem_from_user, ebpf_map_count in *.
    rewrite Hst' in *.
    unfold hashtable_map_update_elem, hashtable_map_lookup_elem in *.
    destruct (chain_find k _); [exfalso; eauto|].
    rewrite (proj2 (Z.leb_le _ _)) by lia. done.
  - intros ops. rewrite <- Hmax. by apply map_run_wf.
Qed.

End MapFacts.

(** * Programs *)

Section ProgFacts.

Variable MAX_INSTS : Z.
Variable MAX_ATTACHED_MAPS : nat.

Local Abbreviation prog_init := (ebpf_prog_init MAX_INSTS MAX_ATTACHED_MAPS).

(** C5: [ebpf_prog_init] answers [EINVAL] when the program pointer is
    null, the attribute pointer is null, the instruction pointer is null,
    the type is not between the sentinels, or the length is outside
    [1, MAX_INSTS]; on a TEST attribute struct with an instruction array
    and a length in range it answers [0] once the host grants the
    instruction buffer, and the program owns the first [prog_len]
    instructions. *)
Theorem ebpf_prog_init_spec (prog_obj : option ebpf_prog)
    (attr : ebpf_prog_attr) (w : world) :
  prog_init prog_obj None w = Done (EINVAL, prog_obj) w /\
  (prog_obj = None \/ pa_prog attr = None \/
   pa_type attr <= EBPF_PROG_TYPE_BAD \/ EBPF_PROG_TYPE_MAX <= pa_type attr \/
   pa_prog_len attr < 1 \/ MAX_INSTS < pa_prog_len attr ->
   prog_init prog_obj (Some attr) w = Done (EINVAL, prog_obj) w) /\
  (prog_obj <> None -> pa_type attr = EBPF_PROG_TYPE_TEST ->
   1 <= pa_prog_len attr <= MAX_INSTS ->
   forall insts m rest,
     pa_prog attr = Some insts -> oracle w = m :: rest -> m <> 0 ->
     exists p w',
       prog_init prog_obj (Some attr) w = Done (0, Some p) w' /\
       p_type p = EBPF_PROG_TYPE_TEST /\
       p_prog p = take (Z.to_nat (pa_prog_len attr)) insts).
Proof.
  unfold ebpf_prog_init, prog_type_valid, EBPF_PROG_TYPE_BAD,
    EBPF_PROG_TYPE_MAX, EBPF_PROG_TYPE_TEST.
  split; [by destruct prog_obj|]. split.
  - intros Hbad. destruct prog_obj as [p0|]; [|done].
    destruct (Z.ltb_spec 0 (pa_type attr));
      destruct (Z.ltb_spec (pa_type attr) 2); simpl; try done.
    destruct (pa_prog attr) as [insts|]; [|done].
    destruct (Z.ltb_spec (pa_prog_len attr) 1);
      destruct (Z.ltb_spec MAX_INSTS (pa_prog_len attr)); simpl; try done.
    exfalso. destruct Hbad as [?|[?|[?|[?|[?|?]]]]]; try done; lia.
  - intros Hp Hty Hlen insts m rest Hinsts Hor Hm.
    destruct prog_obj as [p0|]; [|done].
    rewrite Hty, Hinsts. simpl.
    destruct (Z.ltb_spec (pa_prog_len attr) 1); [lia|].
    destruct (Z.ltb_spec MAX_INSTS (pa_prog_len attr)); [lia|]. simpl.
    unfold bind, ebpf_malloc. rewrite Hor.
    rewrite (proj2 (Z.eqb_neq m 0) Hm), (proj2 (Z.eqb_neq m 0) Hm).
    unfold ret. eauto.
Qed.

End ProgFacts.

(** * The theorems at the inputs of the unit tests *)

(** A fresh allocator of eight-byte blocks on the LP64 host returns a
    block that is not null. *)
Lemma alloc_returns_block_witness :
  exists p a' w',
    ebpf_allocator_alloc 8 8 4096 (mkAlloc [] [] 8) (mkWorld [] [65536]) =
      Done (p, a') w' /\ p <> 0.
Proof.
  destruct (alloc_returns_block 8 8 4096 (mkAlloc [] [] 8)
              (mkWorld [] [65536])) as [_ H]; simpl; try lia.
  - constructor.
  - apply H. right. exists 65536, []. split; [reflexivity | lia].
Defined.

(** The highest block of the segment at 65536, while the two blocks
    below it wait on the free list, can be linked. *)
Example block_freeable_lp64 :
  freeable 8 (mkWorld [(65536, 4096)] [])
    (mkAlloc [66568; 65544] [65536] 1024) 67592.
Proof.
  split; [lia|]. split.
  { exists 65536, 4096. split; [left | lia]. }
  split; [|split].
  - intros H. simpl in H.
    repeat (apply elem_of_cons in H as [H|H]; [lia|]).
    by apply elem_of_nil in H.
  - intros H. simpl in H.
    repeat (apply elem_of_cons in H as [H|H]; [lia|]).
    by apply elem_of_nil in H.
  - intros q Hq. simpl in Hq.
    repeat (apply elem_of_cons in Hq as [->|Hq]; [lia|]).
    by apply elem_of_nil in Hq.
Defined.

Lemma ebpf_allocator_free_frame_witness :
  exists a',
    ebpf_allocator_free (mkAlloc [66568; 65544] [65536] 1024) 67592
      (mkWorld [(65536, 4096)] []) = Done a' (mkWorld [(65536, 4096)] []) /\
    free_block a' = [67592; 66568; 65544] /\
    used_segment a' = [65536] /\
    block_size a' = 1024.
Proof.
  apply (ebpf_allocator_free_frame 8 (mkAlloc [66568; 65544] [65536] 1024)
           67592 (mkWorld [(65536, 4096)] [])).
  exact block_freeable_lp64.
Defined.

Lemma test_map_wf : map_wf fnv1a test_map.
Proof.
  split; [reflexivity|]. simpl. split; [reflexivity|].
  split; [lia|]. split; [vm_compute; discriminate|].
  intros [|[|[|[|i]]]] k v H; inversion H.
Defined.

(** Key 50 and value 100 on the empty map of the test. *)
Lemma update_flags_spec_witness :
  exists m',
    ebpf_map_update_elem_from_user fnv1a test_map (le_bytes 50)
      (le_bytes 100) EBPF_ANY = (0, m') /\
    ebpf_map_lookup_elem_from_user fnv1a m' (le_bytes 50) =
      (0, Some (le_bytes 100)).
Proof.
  destruct (update_flags_spec fnv1a test_map (le_bytes 50) (le_bytes 100)
              test_map_wf) as (_ & _ & _ & _ & H).
  apply H. right. vm_compute. reflexivity.
Defined.

Lemma hashtable_capacity_witness :
  (exists m',
     map_run fnv1a test_map
       (map (fun kv => Update kv.1 kv.2 EBPF_ANY) test_entries) =
       (replicate (length test_entries) 0, m') /\
     (ebpf_map_update_elem_from_user fnv1a m' (le_bytes 100) (le_bytes 100)
        EBPF_ANY).1 = EBUSY) /\
  (forall ops,
     ebpf_map_count (map_run fnv1a test_map ops).2 <= ma_max_entries test_attr).
Proof.
  apply (hashtable_capacity fnv1a (fun _ => 2%nat) test_attr test_map
           (mkWorld [] [65536]) (mkWorld [(65536, 800)] [])).
  - reflexivity.
  - reflexivity.
  - reflexivity.
  - apply (bool_decide_unpack _). vm_compute. exact I.
  - apply (bool_decide_unpack _). vm_compute. exact I.
Defined.

Lemma ebpf_prog_init_spec_witness :
  exists p w',
    ebpf_prog_init 4096 64 (Some (mkProg 0 [] 0 [])) (Some test_prog_attr)
      (mkWorld [] [65536]) = Done (0, Some p) w' /\
    p_type p = EBPF_PROG_TYPE_TEST /\
    p_prog p = take (Z.to_nat (pa_prog_len test_prog_attr))
                 [mkInst EBPF_OP_EXIT 0 0 0 0].
Proof.
  destruct (ebpf_prog_init_spec 4096 64 (Some (mkProg 0 [] 0 []))
              test_prog_attr (mkWorld [] [65536])) as (_ & _ & H).
  apply (H ltac:(discriminate) eq_refl ltac:(simpl; lia) _ 65536 []);
    [reflexivity | reflexivity | lia].
Defined.

(** * The unit tests, run on the model *)

(** [alloc_sound] on the LP64 host: an allocator of 24-byte blocks
    returns a block that is aligned and inside its one segment. *)
Example alloc_sound_lp64 (p : Z) (a' : ebpf_allocator_t) (w' : world) :
  ebpf_allocator_alloc 8 8 4096 (mkAlloc [] [] 24) (mkWorld [] [65536]) =
    Done (p, a') w' ->
  p <> 0 -> block_ok 8 w' a' p.
Proof.
  intros Hrun Hp.
  assert (H512 : (8 | 4096)) by (exists 512; reflexivity).
  assert (H3 : (8 | 24)) by (exists 3; reflexivity).
  assert (Hor : Forall (fun m => (8 | m)) [65536]).
  { repeat constructor. exists 8192. reflexivity. }
  destruct (alloc_sound 8 8 4096 ltac:(lia) eq_refl ltac:(lia) H512
              (mkAlloc [] [] 24) a' (mkWorld [] [65536]) w' p
              ltac:(simpl; lia) H3 ltac:(simpl; lia) Hor
              (List.Forall_nil _) Hrun) as (_ & Hok & _).
  exact (Hok Hp).
Qed.

(** [HashTableMapUpdateTest]: an update with ANY succeeds; NOEXIST on
    the key just stored is [EEXIST]; NOEXIST on the empty map succeeds;
    EXIST on the empty map is [ENOENT]; EXIST on the key just stored
    succeeds and leaves the new value. *)
Example test_update_flags :
  let key := le_bytes 50 in
  let m1 := (ebpf_map_update_elem_from_user fnv1a test_map key
               (le_bytes 100) EBPF_ANY).2 in
  (ebpf_map_update_elem_from_user fnv1a test_map key (le_bytes 100)
     EBPF_ANY).1 = 0 /\
  (ebpf_map_update_elem_from_user fnv1a m1 key (le_bytes 100)
     EBPF_NOEXIST).1 = EEXIST /\
  (ebpf_map_update_elem_from_user fnv1a test_map key (le_bytes 100)
     EBPF_NOEXIST).1 = 0 /\
  (ebpf_map_update_elem_from_user fnv1a test_map key (le_bytes 100)
     EBPF_EXIST).1 = ENOENT /\
  (ebpf_map_update_elem_from_user fnv1a m1 key (le_bytes 101)
     EBPF_EXIST).1 = 0 /\
  ebpf_map_lookup_elem_from_user fnv1a
    (ebpf_map_update_elem_from_user fnv1a m1 key (le_bytes 101)
       EBPF_EXIST).2 key = (0, Some (le_bytes 101)).
Proof. vm_compute. repeat split. Qed.

(** [CorrectUpdateMoreThanMaxEntries]: keys [0] to [99] go in, key [100]
    is [EBUSY]. *)
Example test_more_than_max_entries :
  let run := map_run fnv1a test_map
               (map (fun kv => Update kv.1 kv.2 EBPF_ANY) test_entries) in
  run.1 = replicate 100 0 /\
  ebpf_map_count run.2 = 100 /\
  (ebpf_map_update_elem_from_user fnv1a run.2 (le_bytes 100) (le_bytes 100)
     EBPF_ANY).1 = EBUSY.
Proof. vm_compute. repeat split. Qed.

(** [ProgLoadTest]: a null program pointer, the types MAX and MAX + 1, a
    length of zero and a null instruction pointer are [EINVAL]; the
    correct load answers [0]. *)
Example test_prog_load :
  let w := mkWorld [] [65536] in
  let prog := Some (mkProg 0 [] 0 []) in
  let insts := Some [mkInst EBPF_OP_EXIT 0 0 0 0] in
  let code (r : outcome (Z * option ebpf_prog)) :=
    match r with Done (e, _) _ => Some e | Crash _ => None end in
  code (ebpf_prog_init 4096 64 None (Some test_prog_attr) w) = Some EINVAL /\
  code (ebpf_prog_init 4096 64 prog
          (Some (mkProgAttr EBPF_PROG_TYPE_MAX insts 1)) w) = Some EINVAL /\
  code (ebpf_prog_init 4096 64 prog
          (Some (mkProgAttr (EBPF_PROG_TYPE_MAX + 1) insts 1)) w) =
    Some EINVAL /\
  code (ebpf_prog_init 4096 64 prog
          (Some (mkProgAttr EBPF_PROG_TYPE_TEST insts 0)) w) = Some EINVAL /\
  code (ebpf_prog_init 4096 64 prog
          (Some (mkProgAttr EBPF_PROG_TYPE_TEST None 1)) w) = Some EINVAL /\
  code (ebpf_prog_init 4096 64 prog (Some test_prog_attr) w) = Some 0.
Proof. vm_compute. repeat split. Qed.


(** * More on the allocator *)

Section AllocatorMore.

Variable EBPF_ALLOCATOR_ALIGN : Z.
Variable entry_size : Z.
Variable pagesize : Z.

Local Abbreviation alloc :=
  (ebpf_allocator_alloc EBPF_ALLOCATOR_ALIGN entry_size pagesize).
Local Abbreviation prealloc :=
  (ebpf_allocator_prealloc EBPF_ALLOCATOR_ALIGN entry_size pagesize).
Local Abbreviation seg_size :=
  (segment_size EBPF_ALLOCATOR_ALIGN entry_size pagesize).
Local Abbreviation start :=
  (carve_start EBPF_ALLOCATOR_ALIGN entry_size).

(** ** The three ways through [ebpf_allocator_alloc] *)

Lemma alloc_pop_spec (a : ebpf_allocator_t) (w : world) (p : Z)
    (rest : list Z) :
  free_block a = p :: rest ->
  alloc a w = Done (p, mkAlloc rest (used_segment a) (block_size a)) w.
Proof.
  intros Hfl. unfold ebpf_allocator_alloc, alloc_pop. rewrite Hfl.
  reflexivity.
Qed.

Lemma alloc_refused (a : ebpf_allocator_t) (w : world) :
  free_block a = [] -> host_refuses w ->
  alloc a w = Done (0, a) (mkWorld (live w) (tl (oracle w))).
Proof.
  intros Hfl Hor.
  unfold ebpf_allocator_alloc, bind, alloc_refill, bind, ebpf_malloc.
  rewrite Hfl. destruct Hor as [Hor|[rest Hor]]; rewrite Hor; simpl.
  - unfold ret. destruct w as [lv orc]. simpl in *. subst orc.
    reflexivity.
  - reflexivity.
Qed.

(** On a granted segment the loop starts from [carve_start], ends after
    a last turn on some state [s0], and the block of that turn is the one
    returned.  What holds at the start and is handed from turn to turn
    holds for [s0]. *)
Lemma alloc_granted (I : carving -> Prop) (a : ebpf_allocator_t)
    (w : world) (m : Z) (rest : list Z) :
  0 < block_size a ->
  free_block a = [] -> oracle w = m :: rest -> m <> 0 ->
  I (start m (seg_size (block_size a))) ->
  (forall s, I s ->
     carve_cond (block_size a) (carve_body (block_size a) s) = true ->
     I (carve_body (block_size a) s)) ->
  exists s0,
    I s0 /\
    carve_cond (block_size a) (carve_body (block_size a) s0) = false /\
    alloc a w =
      Done (c_data s0,
            mkAlloc (c_free s0) (m :: used_segment a) (block_size a))
           (mkWorld ((m, seg_size (block_size a)) :: live w) rest).
Proof.
  intros Hbs Hfl Hor Hm Hstart Hstep.
  destruct (carve_exits (block_size a)
              (start m (seg_size (block_size a))) Hbs) as [s1 Hs1].
  pose proof (do_while_inv (carve_body (block_size a))
                (carve_cond (block_size a)) I Hstep 32
                (start m (seg_size (block_size a))) Hstart) as Hinv.
  rewrite Hs1 in Hinv. destruct Hinv as (s0 & Hs0 & Heq & Hc).
  exists s0. split; [assumption|]. rewrite <- Heq. split; [assumption|].
  unfold ebpf_allocator_alloc, bind, alloc_refill, bind, ebpf_malloc.
  rewrite Hfl, Hor, (proj2 (Z.eqb_neq m 0) Hm). cbv beta iota.
  rewrite (proj2 (Z.eqb_neq m 0) Hm).
  unfold carve_start in Hs1. cbv zeta in Hs1.
  assert (Hhead : c_data s1 = c_data s0 /\ c_free s1 = c_free s0).
  { unfold carve_body in Heq. injection Heq as _ _ Hd Hf. auto. }
  destruct Hhead as [<- <-].
  destruct (negb ((m + entry_size) mod EBPF_ALLOCATOR_ALIGN =? 0));
    rewrite Hs1; reflexivity.
Qed.

(** The three ways, for the proofs that treat them one by one. *)
Lemma alloc_cases (a : ebpf_allocator_t) (w : world) :
  (exists p rest, free_block a = p :: rest) \/
  (free_block a = [] /\ host_refuses w) \/
  (free_block a = [] /\ exists m rest, oracle w = m :: rest /\ m <> 0).
Proof.
  destruct (free_block a) as [|p rest]; [|eauto].
  right. destruct (oracle w) as [|m rest] eqn:Hor.
  - left. split; [reflexivity | left; assumption].
  - destruct (Z.eq_dec m 0) as [->|Hm].
    + left. split; [reflexivity | right; eauto].
    + right. eauto.
Qed.

(** ** Where the carving starts *)

Lemma carve_start_free (m size : Z) : c_free (start m size) = [].
Proof.
  unfold carve_start. cbv zeta.
  destruct (negb ((m + entry_size) mod EBPF_ALLOCATOR_ALIGN =? 0));
    reflexivity.
Qed.

Lemma carve_start_data (m size : Z) :
  0 < EBPF_ALLOCATOR_ALIGN ->
  (EBPF_ALLOCATOR_ALIGN | c_data (start m size)) /\
  m + entry_size <= c_data (start m size) <
    m + entry_size + EBPF_ALLOCATOR_ALIGN.
Proof.
  intros Hal. unfold carve_start. cbv zeta.
  pose proof (Z.mod_pos_bound (m + entry_size) EBPF_ALLOCATOR_ALIGN Hal)
    as Hmod.
  pose proof (Z.div_mod (m + entry_size) EBPF_ALLOCATOR_ALIGN
                ltac:(lia)) as Hdm.
  destruct (Z.eqb_spec ((m + entry_size) mod EBPF_ALLOCATOR_ALIGN) 0)
    as [Hz|Hnz]; simpl.
  - split; [|lia]. apply Z.mod_divide; [lia | assumption].
  - split; [|lia].
    exists ((m + entry_size) / EBPF_ALLOCATOR_ALIGN + 1). lia.
Qed.

Lemma spaced_cons_above (bs d : Z) (l : list Z) :
  0 < bs -> Forall (fun q => q + bs <= d) l -> spaced bs l ->
  spaced bs (d :: l).
Proof.
  intros Hbs Hbelow [Hnd Hsp]. rewrite Forall_forall in Hbelow. split.
  - apply NoDup_cons. split; [|assumption].
    intros Hin. specialize (Hbelow d Hin). lia.
  - intros x y [->|Hx]%elem_of_cons [->|Hy]%elem_of_cons Hne.
    + done.
    + specialize (Hbelow y Hy). lia.
    + specialize (Hbelow x Hx). lia.
    + auto.
Qed.

Lemma spaced_tail (bs d : Z) (l : list Z) : spaced bs (d :: l) -> spaced bs l.
Proof.
  intros [Hnd Hsp]. apply NoDup_cons in Hnd as [_ Hnd]. split; [done|].
  intros x y Hx Hy. apply Hsp; by right.
Qed.

(** ** Alignment, spacing and the frame of [ebpf_allocator_alloc] *)

(** X1: every pointer [ebpf_allocator_alloc] returns is a multiple of
    the alignment, and so is every block it leaves on the free list,
    wherever the host puts the segment and whatever its size: the
    comment's "all blocks are aligned" holds with no condition on the
    host. *)
Theorem alloc_aligned (a a' : ebpf_allocator_t) (w w' : world) (p : Z) :
  0 < EBPF_ALLOCATOR_ALIGN ->
  0 < block_size a -> block_size a mod EBPF_ALLOCATOR_ALIGN = 0 ->
  Forall (fun q => q mod EBPF_ALLOCATOR_ALIGN = 0) (free_block a) ->
  alloc a w = Done (p, a') w' ->
  p mod EBPF_ALLOCATOR_ALIGN = 0 /\
  Forall (fun q => q mod EBPF_ALLOCATOR_ALIGN = 0) (free_block a').
Proof.
  intros Hal Hbs Hdiv Hfree Hrun.
  destruct (alloc_cases a w) as
    [(q & rest & Hfl)|[[Hfl Href]|(Hfl & m & rest & Hor & Hm)]].
  - rewrite (alloc_pop_spec a w q rest Hfl) in Hrun.
    injection Hrun as <- <- <-. rewrite Hfl in Hfree.
    apply Forall_cons in Hfree as [Hq Hrest]. auto.
  - rewrite (alloc_refused a w Hfl Href) in Hrun.
    injection Hrun as <- <- <-. split; [|assumption].
    apply Z.mod_0_l. lia.
  - destruct (alloc_granted
      (fun s => (EBPF_ALLOCATOR_ALIGN | c_data s) /\
                Forall (fun q => q mod EBPF_ALLOCATOR_ALIGN = 0) (c_free s))
      a w m rest Hbs Hfl Hor Hm) as (s0 & [Hd Hf] & _ & Heq).
    + rewrite carve_start_free. split; [|constructor].
      apply carve_start_data. assumption.
    + intros s [Hd Hf] _. simpl. split.
      * apply Z.divide_add_r; [assumption|].
        apply Z.mod_divide; [lia | assumption].
      * constructor; [|assumption]. apply Z.mod_divide; [lia | assumption].
    + rewrite Heq in Hrun. injection Hrun as <- <- <-. simpl.
      split; [|assumption]. apply Z.mod_divide; [lia | assumption].
Qed.

Lemma alloc_blocks_spaced_aux (a a' : ebpf_allocator_t) (w w' : world)
    (p : Z) :
  0 < block_size a ->
  spaced (block_size a) (free_block a) ->
  alloc a w = Done (p, a') w' ->
  spaced (block_size a) (p :: free_block a').
Proof.
  intros Hbs Hsp Hrun.
  destruct (alloc_cases a w) as
    [(q & rest & Hfl)|[[Hfl Href]|(Hfl & m & rest & Hor & Hm)]].
  - rewrite (alloc_pop_spec a w q rest Hfl) in Hrun.
    injection Hrun as <- <- <-. simpl. by rewrite <- Hfl.
  - rewrite (alloc_refused a w Hfl Href) in Hrun.
    injection Hrun as <- <- <-. rewrite Hfl.
    apply spaced_cons_above; [assumption | constructor |].
    split; [constructor|]. intros x y Hx. by apply elem_of_nil in Hx.
  - destruct (alloc_granted
      (fun s => Forall (fun q => q + block_size a <= c_data s) (c_free s) /\
                spaced (block_size a) (c_free s))
      a w m rest Hbs Hfl Hor Hm) as (s0 & [Hb Hs] & _ & Heq).
    + rewrite carve_start_free. split; [constructor|].
      split; [constructor|]. intros x y Hx. by apply elem_of_nil in Hx.
    + intros s [Hb Hs] _. simpl. split.
      * constructor; [lia|].
        eapply List.Forall_impl; [|exact Hb]. simpl. intros q Hq. lia.
      * by apply spaced_cons_above.
    + rewrite Heq in Hrun. injection Hrun as <- <- <-. simpl.
      by apply spaced_cons_above.
Qed.

(** X2: the blocks of the free list never overlap.  If no two blocks
    waiting on the free list are less than [block_size] bytes apart, the
    same holds afterwards for the block returned together with the
    blocks left: a refill links blocks that are [block_size] bytes
    apart, whatever the host answered. *)
Theorem alloc_blocks_spaced (a a' : ebpf_allocator_t) (w w' : world)
    (p : Z) :
  0 < block_size a ->
  spaced (block_size a) (free_block a) ->
  alloc a w = Done (p, a') w' ->
  spaced (block_size a) (p :: free_block a').
Proof. apply alloc_blocks_spaced_aux. Qed.

Lemma alloc_frame_aux (a a' : ebpf_allocator_t) (w w' : world) (p : Z) :
  0 < block_size a ->
  alloc a w = Done (p, a') w' ->
  block_size a' = block_size a /\
  (free_block a <> [] -> w' = w /\ used_segment a' = used_segment a) /\
  (free_block a = [] ->
   (p = 0 /\ a' = a /\ live w' = live w /\ oracle w' = tl (oracle w)) \/
   (exists m, m <> 0 /\ oracle w = m :: oracle w' /\
              used_segment a' = m :: used_segment a /\
              live w' = (m, seg_size (block_size a)) :: live w)).
Proof.
  intros Hbs Hrun.
  destruct (alloc_cases a w) as
    [(q & rest & Hfl)|[[Hfl Href]|(Hfl & m & rest & Hor & Hm)]].
  - rewrite (alloc_pop_spec a w q rest Hfl) in Hrun.
    injection Hrun as <- <- <-. simpl. rewrite Hfl.
    split; [reflexivity|]. split; [auto | discriminate].
  - rewrite (alloc_refused a w Hfl Href) in Hrun.
    injection Hrun as <- <- <-. simpl.
    split; [reflexivity|]. split; [congruence|]. intros _. left. auto.
  - destruct (alloc_granted (fun _ => True) a w m rest Hbs Hfl Hor Hm I
                (fun _ _ _ => I)) as (s0 & _ & _ & Heq).
    rewrite Heq in Hrun. injection Hrun as <- <- <-. simpl.
    split; [reflexivity|]. split; [congruence|]. intros _. right.
    exists m. auto.
Qed.

(** X3: [ebpf_allocator_alloc] never changes the block size and never
    takes a segment off the used-segment list.  With a block waiting on
    the free list it does not ask the host at all; otherwise it asks
    once, and a granted segment goes on top of the used-segment list with
    the size of [segment_size]. *)
Theorem alloc_frame (a a' : ebpf_allocator_t) (w w' : world) (p : Z) :
  0 < block_size a ->
  alloc a w = Done (p, a') w' ->
  block_size a' = block_size a /\
  (free_block a <> [] -> w' = w /\ used_segment a' = used_segment a) /\
  (free_block a = [] ->
   (p = 0 /\ a' = a /\ live w' = live w /\ oracle w' = tl (oracle w)) \/
   (exists m, m <> 0 /\ oracle w = m :: oracle w' /\
              used_segment a' = m :: used_segment a /\
              live w' = (m, seg_size (block_size a)) :: live w)).
Proof. apply alloc_frame_aux. Qed.

Lemma alloc_null_iff_aux (a a' : ebpf_allocator_t) (w w' : world) (p : Z) :
  0 < EBPF_ALLOCATOR_ALIGN -> 0 <= entry_size -> 0 < block_size a ->
  Forall (fun q => q <> 0) (free_block a) ->
  Forall (fun m => 0 <= m) (oracle w) ->
  alloc a w = Done (p, a') w' ->
  (p = 0 <-> free_block a = [] /\ host_refuses w) /\
  (p = 0 -> a' = a /\ live w' = live w).
Proof.
  intros Hal Hent Hbs Hfree Hor0 Hrun.
  destruct (alloc_cases a w) as
    [(q & rest & Hfl)|[[Hfl Href]|(Hfl & m & rest & Hor & Hm)]].
  - rewrite (alloc_pop_spec a w q rest Hfl) in Hrun.
    injection Hrun as <- <- <-. rewrite Hfl in Hfree |- *.
    apply Forall_cons in Hfree as [Hq _].
    split; [split; [done | intros [? _]; discriminate] | done].
  - rewrite (alloc_refused a w Hfl Href) in Hrun.
    injection Hrun as <- <- <-. simpl. split; [|auto].
    split; auto.
  - rewrite Hor in Hor0. apply Forall_cons in Hor0 as [Hm0 _].
    destruct (alloc_granted (fun s => 0 < c_data s) a w m rest Hbs Hfl
                Hor Hm) as (s0 & Hpos & _ & Heq).
    + pose proof (carve_start_data m (seg_size (block_size a)) Hal). lia.
    + intros s Hs _. simpl. lia.
    + rewrite Heq in Hrun. injection Hrun as <- <- <-.
      split; [|lia]. split; [lia|].
      intros [_ [Hr|[r Hr]]]; rewrite Hor in Hr; [discriminate|].
      injection Hr as -> _. done.
Qed.

(** X4: a null pointer from [ebpf_allocator_alloc] means out of memory
    and nothing else.  On an allocator whose free list holds no null, and
    a host whose addresses are not negative, the answer is null exactly
    when the free list is empty and the host refuses the segment; the
    allocator is then as it was and the host has handed out nothing. *)
Theorem alloc_null_iff (a a' : ebpf_allocator_t) (w w' : world) (p : Z) :
  0 < EBPF_ALLOCATOR_ALIGN -> 0 <= entry_size -> 0 < block_size a ->
  Forall (fun q => q <> 0) (free_block a) ->
  Forall (fun m => 0 <= m) (oracle w) ->
  alloc a w = Done (p, a') w' ->
  (p = 0 <-> free_block a = [] /\ host_refuses w) /\
  (p = 0 -> a' = a /\ live w' = live w).
Proof. apply alloc_null_iff_aux. Qed.

(** X5: the free list is a stack.  A block that can be linked and is
    handed to [ebpf_allocator_free] is the block the next
    [ebpf_allocator_alloc] returns, and the two calls leave the allocator
    and the host as they were; and with that block at the head of the
    free list, an allocation that is freed again leaves everything as it
    was, too. *)
Theorem free_alloc_roundtrip (a : ebpf_allocator_t) (w : world) (ptr : Z) :
  freeable entry_size w a ptr ->
  (a1 <- ebpf_allocator_free a ptr ;; alloc a1) w = Done (ptr, a) w /\
  (r <- alloc (mkAlloc (ptr :: free_block a) (used_segment a)
                 (block_size a)) ;;
   ebpf_allocator_free (snd r) (fst r)) w =
    Done (mkAlloc (ptr :: free_block a) (used_segment a) (block_size a)) w.
Proof.
  intros (Hp & _). unfold bind. split.
  - rewrite (free_linked a ptr w Hp).
    rewrite (alloc_pop_spec _ w ptr (free_block a)) by reflexivity.
    simpl. by destruct a.
  - rewrite (alloc_pop_spec _ w ptr (free_block a)) by reflexivity.
    simpl. by rewrite (free_linked _ ptr w Hp).
Qed.

(** ** What a positive block count is worth *)

(** X6: for every block count of at least one,
    [ebpf_allocator_prealloc] does what it does for a count of one: the
    count has no influence on the blocks that are made ready. *)
Theorem prealloc_count_irrelevant (a : ebpf_allocator_t) (w : world)
    (nblocks : Z) :
  1 <= nblocks -> prealloc a nblocks w = prealloc a 1 w.
Proof.
  intros Hn. unfold ebpf_allocator_prealloc.
  rewrite (proj2 (Z.eqb_neq nblocks 0)) by lia.
  change (1 =? 0) with false. cbv iota.
  destruct (Z.to_nat nblocks) as [|k] eqn:Hk; [lia|].
  change (Z.to_nat 1) with 1%nat.
  simpl. unfold bind.
  destruct (alloc a w) as [[tmp a1] w1|f]; [|reflexivity].
  destruct (Z.eqb_spec tmp 0) as [Hz|Hnz]; [reflexivity|].
  rewrite (free_linked a1 tmp w1 Hnz).
  apply (prealloc_loop_recycles _ _ _ k _ w1 tmp (free_block a1));
    [reflexivity | assumption].
Qed.

(** X7: what [ebpf_allocator_prealloc] answers for a count of at least
    one.  [ENOMEM] exactly when the free list is empty and the host
    refuses the segment, and then nothing has changed; in every other
    case [0], with a free list that is not empty. *)
Theorem prealloc_outcome (a a' : ebpf_allocator_t) (w w' : world)
    (nblocks e : Z) :
  0 < EBPF_ALLOCATOR_ALIGN -> 0 <= entry_size -> 0 < block_size a ->
  Forall (fun q => q <> 0) (free_block a) ->
  Forall (fun m => 0 <= m) (oracle w) ->
  1 <= nblocks ->
  prealloc a nblocks w = Done (e, a') w' ->
  (e = ENOMEM <-> free_block a = [] /\ host_refuses w) /\
  (e = ENOMEM -> a' = a /\ live w' = live w) /\
  (e <> ENOMEM -> e = 0 /\ free_block a' <> []).
Proof.
  intros Hal Hent Hbs Hfree Hor0 Hn Hrun.
  unfold ebpf_allocator_prealloc in Hrun.
  rewrite (proj2 (Z.eqb_neq nblocks 0)) in Hrun by lia.
  destruct (Z.to_nat nblocks) as [|k] eqn:Hk; [lia|].
  simpl in Hrun. unfold bind in Hrun.
  destruct (alloc a w) as [[tmp a1] w1|f] eqn:Halloc; [|discriminate].
  destruct (alloc_null_iff_aux a a1 w w1 tmp Hal Hent Hbs Hfree Hor0 Halloc)
    as [Hiff Hsame].
  destruct (Z.eqb_spec tmp 0) as [Hz|Hnz].
  - injection Hrun as <- <- <-. destruct (Hsame Hz) as [-> Hlive].
    split; [split; [intros _; by apply Hiff | done]|].
    split; [done | intros H; by destruct H].
  - rewrite (free_linked a1 tmp w1 Hnz) in Hrun.
    rewrite (prealloc_loop_recycles _ _ _ k _ w1 tmp (free_block a1))
      in Hrun by done.
    injection Hrun as <- <- <-. simpl.
    split; [split; [discriminate | intros H; apply Hiff in H; done]|].
    split; [discriminate | done].
Qed.

(** ** Runs of client calls *)

(** What [ebpf_allocator_alloc] and [ebpf_allocator_free] keep, the loop
    of [ebpf_allocator_prealloc] keeps. *)
Lemma prealloc_loop_preserves (P : ebpf_allocator_t -> world -> Prop) :
  (forall a w p a' w', P a w -> alloc a w = Done (p, a') w' -> P a' w') ->
  (forall a w ptr a' w',
     P a w -> ebpf_allocator_free a ptr w = Done a' w' -> P a' w') ->
  forall n a w e a' w',
    P a w ->
    prealloc_loop EBPF_ALLOCATOR_ALIGN entry_size pagesize n a w =
      Done (e, a') w' ->
    P a' w'.
Proof.
  intros Halloc Hfree. induction n as [|n IH]; intros a w e a' w' HP Hrun.
  - injection Hrun as _ <- <-. assumption.
  - simpl in Hrun. unfold bind in Hrun.
    destruct (alloc a w) as [[tmp a1] w1|f] eqn:Ha; [|discriminate].
    pose proof (Halloc a w tmp a1 w1 HP Ha) as HP1.
    destruct (tmp =? 0).
    + injection Hrun as _ <- <-. assumption.
    + destruct (ebpf_allocator_free a1 tmp w1) as [a2 w2|f] eqn:Hf;
        [|discriminate].
      eapply IH; [|exact Hrun]. eapply Hfree; eassumption.
Qed.

(** And so does every run of a client. *)
Lemma client_run_preserves (P : ebpf_allocator_t -> world -> Prop) :
  (forall a w p a' w', P a w -> alloc a w = Done (p, a') w' -> P a' w') ->
  (forall a w ptr a' w',
     P a w -> ebpf_allocator_free a ptr w = Done a' w' -> P a' w') ->
  forall ops a held w a' held' w',
    P a w ->
    client_run EBPF_ALLOCATOR_ALIGN entry_size pagesize ops a held w =
      Done (Some (a', held')) w' ->
    P a' w'.
Proof.
  intros Halloc Hfree.
  induction ops as [|[|ptr|n] ops IH]; intros a held w a' held' w' HP Hrun.
  - injection Hrun as <- _ <-. assumption.
  - simpl in Hrun. unfold bind in Hrun.
    destruct (alloc a w) as [[p a1] w1|f] eqn:Ha; [|discriminate].
    eapply IH; [|exact Hrun]. eapply Halloc; eassumption.
  - simpl in Hrun. destruct (bool_decide (ptr ∈ held)); [|discriminate].
    unfold bind in Hrun.
    destruct (ebpf_allocator_free a ptr w) as [a1 w1|f] eqn:Hf;
      [|discriminate].
    eapply IH; [|exact Hrun]. eapply Hfree; eassumption.
  - simpl in Hrun. unfold bind in Hrun.
    destruct (prealloc a n w) as [[e a1] w1|f] eqn:Hp; [|discriminate].
    eapply IH; [|exact Hrun]. simpl.
    unfold ebpf_allocator_prealloc in Hp. destruct (n =? 0).
    + injection Hp as _ <- <-. assumption.
    + eapply prealloc_loop_preserves; eassumption.
Qed.

(** The client never holds a null pointer. *)
Lemma client_run_nonnull (ops : list alloc_op) :
  forall (a a' : ebpf_allocator_t) (held held' : list Z) (w w' : world),
  0 ∉ held ->
  client_run EBPF_ALLOCATOR_ALIGN entry_size pagesize ops a held w =
    Done (Some (a', held')) w' ->
  0 ∉ held'.
Proof.
  induction ops as [|[|ptr|n] ops IH]; intros a a' held held' w w' Hnn Hrun.
  - injection Hrun as _ <- _. assumption.
  - simpl in Hrun. unfold bind in Hrun.
    destruct (alloc a w) as [[p a1] w1|f]; [|discriminate].
    eapply IH; [|exact Hrun]. simpl.
    destruct (Z.eqb_spec p 0) as [Hz|Hnz]; [assumption|].
    intros [Hx|Hx]%elem_of_cons; [congruence | done].
  - simpl in Hrun. destruct (bool_decide (ptr ∈ held)); [|discriminate].
    unfold bind in Hrun.
    destruct (ebpf_allocator_free a ptr w) as [a1 w1|f]; [|discriminate].
    eapply IH; [|exact Hrun].
    intros [_ Hx]%list_elem_of_filter. done.
  - simpl in Hrun. unfold bind in Hrun.
    destruct (prealloc a n w) as [[e a1] w1|f]; [|discriminate].
    eapply IH; eassumption.
Qed.

Lemma alloc_total (a : ebpf_allocator_t) (w : world) :
  0 < block_size a ->
  exists p a' w',
    alloc a w = Done (p, a') w' /\ block_size a' = block_size a.
Proof.
  intros Hbs.
  destruct (alloc_cases a w) as
    [(q & rest & Hfl)|[[Hfl Href]|(Hfl & m & rest & Hor & Hm)]].
  - rewrite (alloc_pop_spec a w q rest Hfl). eauto.
  - rewrite (alloc_refused a w Hfl Href). eauto.
  - destruct (alloc_granted (fun _ => True) a w m rest Hbs Hfl Hor Hm I
                (fun _ _ _ => I)) as (s0 & _ & _ & ->).
    eauto.
Qed.

Lemma prealloc_loop_total (n : nat) :
  forall (a : ebpf_allocator_t) (w : world),
  0 < block_size a ->
  exists e a' w',
    prealloc_loop EBPF_ALLOCATOR_ALIGN entry_size pagesize n a w =
      Done (e, a') w' /\ block_size a' = block_size a.
Proof.
  induction n as [|n IH]; intros a w Hbs; simpl.
  - unfold ret. eauto.
  - unfold bind.
    destruct (alloc_total a w Hbs) as (tmp & a1 & w1 & -> & Hbs1).
    destruct (Z.eqb_spec tmp 0) as [Hz|Hnz]; [unfold ret; eauto|].
    rewrite (free_linked a1 tmp w1 Hnz).
    destruct (IH (mkAlloc (tmp :: free_block a1) (used_segment a1)
                    (block_size a1)) w1 ltac:(simpl; lia))
      as (e & a' & w' & -> & Hbs').
    simpl in Hbs'. exists e, a', w'. split; [reflexivity | lia].
Qed.

(** Every call of a client that holds no null pointer returns: the pop
    never reads an empty free list, the carving loop ends, and no null
    pointer is handed to [ebpf_allocator_free]. *)
Lemma client_run_total (ops : list alloc_op) :
  forall (a : ebpf_allocator_t) (held : list Z) (w : world),
  0 < block_size a -> 0 ∉ held ->
  exists r w',
    client_run EBPF_ALLOCATOR_ALIGN entry_size pagesize ops a held w =
      Done r w'.
Proof.
  induction ops as [|[|ptr|n] ops IH]; intros a held w Hbs Hnn; simpl.
  - unfold ret. eauto.
  - unfold bind.
    destruct (alloc_total a w Hbs) as (p & a1 & w1 & -> & Hbs1).
    apply IH; simpl; [lia|].
    destruct (Z.eqb_spec p 0) as [Hz|Hnz]; [assumption|].
    intros [Hx|Hx]%elem_of_cons; [congruence | done].
  - destruct (bool_decide_reflect (ptr ∈ held)) as [Hin|Hout];
      [|unfold ret; eauto].
    assert (Hp : ptr <> 0) by (intros ->; done).
    unfold bind. rewrite (free_linked a ptr w Hp).
    apply IH; [assumption|].
    intros [_ Hx]%list_elem_of_filter. done.
  - unfold bind, ebpf_allocator_prealloc.
    destruct (n =? 0); [unfold ret; apply IH; assumption|].
    destruct (prealloc_loop_total (Z.to_nat n) a w Hbs)
      as (e & a1 & w1 & -> & Hbs1).
    apply IH; [simpl; lia | assumption].
Qed.

Lemma release_segments_owned (used : list Z) :
  forall (segs rest : list (Z * Z)) (w : world),
  live w = segs ++ rest -> segs.*1 = used ->
  release_segments used w = Done tt (mkWorld rest (oracle w)).
Proof.
  induction used as [|tmp used IH]; intros segs rest w Hlive Hsegs.
  - destruct segs; [|discriminate]. simpl in Hlive. rewrite <- Hlive.
    by destruct w.
  - destruct segs as [|[b sz] segs]; [discriminate|].
    injection Hsegs as -> Hsegs. simpl. unfold bind, ebpf_free.
    rewrite Hlive. simpl. rewrite Z.eqb_refl.
    by rewrite (IH segs rest (mkWorld (segs ++ rest) (oracle w))).
Qed.


(** ** Segments that fit in 32 bits, again

    The platform of [alloc_sound]: pointers of at least four bytes, a list
    entry of one link, a 32-bit page size that is a multiple of the
    alignment. *)

Section Fits32.

Hypothesis Hword : 4 <= EBPF_ALLOCATOR_ALIGN.
Hypothesis Hentry : entry_size = EBPF_ALLOCATOR_ALIGN.
Hypothesis Hpage : 0 < pagesize < 2 ^ 32.
Hypothesis Hpage_al : (EBPF_ALLOCATOR_ALIGN | pagesize).

Lemma carve_start_aligned (m size : Z) :
  (EBPF_ALLOCATOR_ALIGN | m) ->
  start m size = mkCarving (m + entry_size) size [].
Proof.
  intros Hm. unfold carve_start. cbv zeta.
  assert (Hmis : (m + entry_size) mod EBPF_ALLOCATOR_ALIGN = 0).
  { apply Z.mod_divide; [lia|]. rewrite Hentry.
    apply Z.divide_add_r; [assumption | apply Z.divide_refl]. }
  rewrite Hmis. reflexivity.
Qed.

Lemma max_size_bounds (bs : Z) :
  0 < bs -> (EBPF_ALLOCATOR_ALIGN | bs) ->
  entry_size + bs + EBPF_ALLOCATOR_ALIGN < 2 ^ 32 ->
  let size := Z.max pagesize (entry_size + bs + EBPF_ALLOCATOR_ALIGN) in
  bs < size < 2 ^ 32 /\ (EBPF_ALLOCATOR_ALIGN | size).
Proof.
  intros Hbs Hdiv Hfit size. split; [unfold size; lia|].
  unfold size. apply Z.max_case; [assumption|]. rewrite Hentry.
  repeat apply Z.divide_add_r; try assumption; apply Z.divide_refl.
Qed.

Lemma alloc_refill_blocks_aux (a : ebpf_allocator_t) (w : world) (m : Z)
    (rest : list Z) :
  0 < block_size a -> (EBPF_ALLOCATOR_ALIGN | block_size a) ->
  entry_size + block_size a + EBPF_ALLOCATOR_ALIGN < 2 ^ 32 ->
  free_block a = [] -> oracle w = m :: rest -> m <> 0 ->
  (EBPF_ALLOCATOR_ALIGN | m) ->
  let size :=
    Z.max pagesize (entry_size + block_size a + EBPF_ALLOCATOR_ALIGN) in
  exists p fl,
    alloc a w =
      Done (p, mkAlloc fl (m :: used_segment a) (block_size a))
           (mkWorld ((m, size) :: live w) rest) /\
    p :: fl =
      blocks_from (m + entry_size) (block_size a)
        (Z.to_nat ((size - entry_size) / block_size a)).
Proof.
  intros Hbs Hdiv Hfit Hfl Hor Hm Hmal size.
  destruct (max_size_bounds (block_size a) Hbs Hdiv Hfit) as [Hsz Hszal].
  fold size in Hsz, Hszal.
  assert (Hseg : seg_size (block_size a) = size).
  { apply segment_size_max; try assumption; lia. }
  destruct (alloc_granted
    (fun s => exists k : nat,
       c_data s = m + entry_size + Z.of_nat k * block_size a /\
       c_free s = blocks_from (m + entry_size) (block_size a) k /\
       c_size s = size - Z.of_nat k * block_size a /\
       block_size a < c_size s /\
       (EBPF_ALLOCATOR_ALIGN | c_size s))
    a w m rest Hbs Hfl Hor Hm) as (s0 & (k & Hd & Hf & Hs & Hlt & Hal)
                                     & Hexit & Heq).
  - rewrite Hseg, carve_start_aligned by assumption. exists 0%nat. simpl.
    repeat split; try lia. assumption.
  - intros s (k & Hd & Hf & Hs & Hlt & Hal) Hc.
    assert (Hk : 0 <= Z.of_nat k * block_size a) by nia.
    assert (Hu : u32 (c_size s - block_size a) = c_size s - block_size a)
      by (apply u32_small; lia).
    unfold carve_cond, carve_body in Hc |- *. simpl in Hc |- *.
    rewrite Hu in Hc |- *. apply Z.gtb_lt in Hc.
    exists (S k). rewrite Nat2Z.inj_succ. simpl blocks_from.
    split; [lia|]. split; [by rewrite Hd, Hf|]. split; [lia|].
    split; [lia|]. apply Z.divide_sub_r; assumption.
  - exists (c_data s0), (c_free s0). rewrite Heq, Hseg.
    split; [reflexivity|].
    assert (Hk : 0 <= Z.of_nat k * block_size a) by nia.
    assert (Hu : u32 (c_size s0 - block_size a) = c_size s0 - block_size a)
      by (apply u32_small; lia).
    unfold carve_cond, carve_body in Hexit. simpl in Hexit.
    rewrite Hu in Hexit.
    assert (Hle : c_size s0 - block_size a <= block_size a).
    { destruct (Z.gtb_spec (c_size s0 - block_size a) (block_size a));
        [discriminate | lia]. }
    destruct Hal as [ks Hks]. destruct Hdiv as [kb Hkb].
    assert (Hks' : kb < ks) by nia.
    assert (Hgap : EBPF_ALLOCATOR_ALIGN <= c_size s0 - block_size a)
      by nia.
    assert (Hn : (size - entry_size) / block_size a = Z.of_nat (S k)).
    { symmetry.
      apply (Z.div_unique_pos _ _ _
               (size - entry_size - Z.of_nat (S k) * block_size a));
        lia. }
    rewrite Hn, Nat2Z.id. simpl blocks_from. by rewrite Hd, Hf.
Qed.

(** X10: how many blocks a segment gives.  On a granted, aligned segment
    of [size] bytes the refill links the blocks at [base + header],
    [base + header + block_size], ... and there are
    [(size - header) / block_size] of them, as many as fit behind the
    header: the highest is returned, the others wait on the free list in
    descending order. *)
Theorem alloc_refill_blocks (a : ebpf_allocator_t) (w : world) (m : Z)
    (rest : list Z) :
  0 < block_size a -> (EBPF_ALLOCATOR_ALIGN | block_size a) ->
  entry_size + block_size a + EBPF_ALLOCATOR_ALIGN < 2 ^ 32 ->
  free_block a = [] -> oracle w = m :: rest -> m <> 0 ->
  (EBPF_ALLOCATOR_ALIGN | m) ->
  let size :=
    Z.max pagesize (entry_size + block_size a + EBPF_ALLOCATOR_ALIGN) in
  exists p fl,
    alloc a w =
      Done (p, mkAlloc fl (m :: used_segment a) (block_size a))
           (mkWorld ((m, size) :: live w) rest) /\
    p :: fl =
      blocks_from (m + entry_size) (block_size a)
        (Z.to_nat ((size - entry_size) / block_size a)).
Proof. apply alloc_refill_blocks_aux. Qed.

(** Allocating as often as there are blocks on the free list empties
    it, in order, without a word to the host. *)
Lemma alloc_many_pops (fl : list Z) :
  forall (a : ebpf_allocator_t) (w : world),
  free_block a = fl ->
  alloc_many EBPF_ALLOCATOR_ALIGN entry_size pagesize (length fl) a w =
    Done (fl, mkAlloc [] (used_segment a) (block_size a)) w.
Proof.
  induction fl as [|q fl IH]; intros a w Hfl; simpl.
  - unfold ret. rewrite <- Hfl. by destruct a.
  - unfold bind. rewrite (alloc_pop_spec a w q fl Hfl). simpl.
    rewrite (IH (mkAlloc fl (used_segment a) (block_size a)) w eq_refl).
    reflexivity.
Qed.

Lemma blocks_from_length (d bs : Z) (n : nat) :
  length (blocks_from d bs n) = n.
Proof. induction n as [|n IH]; simpl; [reflexivity | by rewrite IH]. Qed.

(** X13: one segment serves [(size - header) / block_size] allocations.
    Starting from an empty free list, that many calls of
    [ebpf_allocator_alloc] return the blocks of one granted, aligned
    segment from the highest down to the first behind the header; the
    host is asked once, and the free list is empty again afterwards. *)
Theorem alloc_many_one_segment (a : ebpf_allocator_t) (w : world) (m : Z)
    (rest : list Z) :
  0 < block_size a -> (EBPF_ALLOCATOR_ALIGN | block_size a) ->
  entry_size + block_size a + EBPF_ALLOCATOR_ALIGN < 2 ^ 32 ->
  free_block a = [] -> oracle w = m :: rest -> m <> 0 ->
  (EBPF_ALLOCATOR_ALIGN | m) ->
  let size :=
    Z.max pagesize (entry_size + block_size a + EBPF_ALLOCATOR_ALIGN) in
  let n := Z.to_nat ((size - entry_size) / block_size a) in
  alloc_many EBPF_ALLOCATOR_ALIGN entry_size pagesize n a w =
    Done (blocks_from (m + entry_size) (block_size a) n,
          mkAlloc [] (m :: used_segment a) (block_size a))
         (mkWorld ((m, size) :: live w) rest).
Proof.
  intros Hbs Hdiv Hfit Hfl Hor Hm Hmal size n.
  destruct (alloc_refill_blocks_aux a w m rest Hbs Hdiv Hfit Hfl Hor Hm
              Hmal) as (p & fl & Heq & Hblocks).
  fold size in Heq, Hblocks. fold n in Hblocks.
  assert (Hn : n = S (length fl)).
  { rewrite <- (blocks_from_length (m + entry_size) (block_size a) n).
    by rewrite <- Hblocks. }
  rewrite <- Hblocks, Hn. simpl. unfold bind. rewrite Heq. simpl.
  rewrite (alloc_many_pops fl
             (mkAlloc fl (m :: used_segment a) (block_size a)) _ eq_refl).
  reflexivity.
Qed.

(** X11: blocks stay inside their segments.  As long as header, block
    and alignment together fit in 32 bits and the host hands out aligned
    segments, a free list of blocks that are aligned and inside recorded,
    live segments stays such a list, every block
    [ebpf_allocator_alloc] returns is such a block, and the blocks in
    use remain such blocks. *)
Theorem alloc_block_in_segment (a a' : ebpf_allocator_t) (w w' : world)
    (p : Z) :
  0 < block_size a -> (EBPF_ALLOCATOR_ALIGN | block_size a) ->
  entry_size + block_size a + EBPF_ALLOCATOR_ALIGN < 2 ^ 32 ->
  Forall (fun m => (EBPF_ALLOCATOR_ALIGN | m)) (oracle w) ->
  allocator_inv EBPF_ALLOCATOR_ALIGN w a ->
  alloc a w = Done (p, a') w' ->
  allocator_inv EBPF_ALLOCATOR_ALIGN w' a' /\
  (p <> 0 -> block_ok EBPF_ALLOCATOR_ALIGN w' a' p) /\
  (forall q, block_ok EBPF_ALLOCATOR_ALIGN w a q ->
             block_ok EBPF_ALLOCATOR_ALIGN w' a' q).
Proof.
  intros Hbs Hdiv Hfit Hor Hinv Hrun.
  destruct (alloc_sound EBPF_ALLOCATOR_ALIGN entry_size pagesize Hword
              Hentry Hpage Hpage_al a a' w w' p Hbs Hdiv Hfit Hor Hinv Hrun)
    as (H1 & H2 & _ & _ & H3).
  auto.
Qed.

(** ** A client that frees only what it holds *)

Lemma spaced_perm (d : Z) (l l' : list Z) :
  l ≡ₚ l' -> spaced d l -> spaced d l'.
Proof.
  intros Hp [Hnd Hsp]. split; [by rewrite <- Hp|].
  intros x y Hx Hy. rewrite <- Hp in Hx, Hy. auto.
Qed.

Lemma spaced_subset (d : Z) (l l' : list Z) :
  NoDup l' -> (forall x, x ∈ l' -> x ∈ l) -> spaced d l -> spaced d l'.
Proof.
  intros Hnd Hsub [_ Hsp]. split; [assumption|].
  intros x y Hx Hy. auto.
Qed.

Lemma filter_ne_notin (p : Z) (l : list Z) :
  p ∉ l -> filter (fun q => q <> p) l = l.
Proof.
  induction l as [|x l IH]; [reflexivity|].
  intros [Hne Hl]%not_elem_of_cons.
  rewrite filter_cons_True by congruence. by rewrite IH.
Qed.

Section Client.

Variable bs : Z.
Hypothesis Hbs : 0 < bs.
Hypothesis Hdiv : (EBPF_ALLOCATOR_ALIGN | bs).
Hypothesis Hfit : entry_size + bs + EBPF_ALLOCATOR_ALIGN < 2 ^ 32.

Local Abbreviation size :=
  (Z.max pagesize (entry_size + bs + EBPF_ALLOCATOR_ALIGN)).
Local Abbreviation cinv :=
  (client_inv EBPF_ALLOCATOR_ALIGN entry_size size bs).

(** The same segments, and blocks that were among the blocks before. *)
Lemma client_inv_reshape (a a2 : ebpf_allocator_t) (held held2 : list Z)
    (w : world) :
  cinv a held w ->
  used_segment a2 = used_segment a -> block_size a2 = block_size a ->
  NoDup (free_block a2 ++ held2) ->
  (forall x, x ∈ free_block a2 ++ held2 -> x ∈ free_block a ++ held) ->
  cinv a2 held2 w.
Proof.
  intros (Hb & Hsp & Hin & Hseg & Hor & Hlive) Hu Hbs2 Hnd Hsub.
  unfold client_inv. rewrite Hu, Hbs2.
  split; [assumption|]. split; [by apply (spaced_subset _ _ _ Hnd Hsub)|].
  split; [auto|]. auto.
Qed.

Lemma client_inv_alloc (a a' : ebpf_allocator_t) (held : list Z)
    (w w' : world) (p : Z) :
  cinv a held w ->
  alloc a w = Done (p, a') w' ->
  cinv a' (if p =? 0 then held else p :: held) w'.
Proof.
  intros Hinv Hrun.
  pose proof Hinv as (Hb & Hsp & Hin & Hseg & Hor & Hlive).
  assert (Hbsa : 0 < block_size a) by lia.
  destruct (alloc_cases a w) as
    [(q & rest & Hfl)|[[Hfl Href]|(Hfl & m & rest & Hmor & Hm)]].
  - (* a block was waiting *)
    rewrite (alloc_pop_spec a w q rest Hfl) in Hrun.
    injection Hrun as <- <- <-.
    destruct Hsp as [Hnd _]. rewrite Hfl in Hnd. simpl in Hnd.
    apply NoDup_cons in Hnd as [Hq Hnd].
    apply (client_inv_reshape a _ held _ w Hinv); try reflexivity.
    + simpl. destruct (q =? 0); [assumption|].
      rewrite <- Permutation_middle. by apply NoDup_cons.
    + simpl. rewrite Hfl. intros x. destruct (q =? 0).
      * intros Hx. by right.
      * rewrite <- Permutation_middle. done.
  - (* the host refuses *)
    rewrite (alloc_refused a w Hfl Href) in Hrun.
    injection Hrun as <- <- <-. simpl.
    repeat split; try (by destruct Hsp); try assumption.
    + destruct Href as [Hr|[r Hr]]; rewrite Hr in Hseg |- *; simpl.
      * by destruct Hseg.
      * rewrite filter_cons_False in Hseg by (intros H; by apply H).
        by destruct Hseg.
    + destruct Href as [Hr|[r Hr]]; rewrite Hr in Hseg |- *; simpl.
      * by destruct Hseg.
      * rewrite filter_cons_False in Hseg by (intros H; by apply H).
        by destruct Hseg.
    + destruct Href as [Hr|[r Hr]]; rewrite Hr in Hor |- *; simpl;
        [constructor|]. by apply Forall_cons in Hor as [_ Hor].
  - (* a segment is granted and carved *)
    rewrite Hmor in Hor, Hseg. apply Forall_cons in Hor as [Hmal Hor].
    rewrite filter_cons_True in Hseg by assumption.
    rewrite <- Hb in Hdiv, Hfit.
    destruct (alloc_empty_spec EBPF_ALLOCATOR_ALIGN entry_size pagesize
                Hword Hentry Hpage Hpage_al a w m rest Hbsa Hdiv Hfit Hfl
                Hmor Hm Hmal) as (p' & fl' & Heq & Hall).
    pose proof (alloc_blocks_spaced_aux a _ w _ p' Hbsa
                  ltac:(rewrite Hfl; split; [constructor|];
                        intros x y Hx; by apply elem_of_nil in Hx) Heq)
      as Hnew.
    simpl in Hnew. rewrite Hb in Hall, Hnew, Heq.
    rewrite Heq in Hrun. injection Hrun as <- <- <-.
    rewrite Hfl in Hsp, Hin. simpl in Hsp, Hin.
    rewrite Forall_forall in Hall.
    assert (Hm_used : m ∉ used_segment a).
    { destruct Hseg as [Hnd _]. apply NoDup_app in Hnd as (_ & Hd & _).
      intros Hmu. apply (Hd m Hmu). left. }
    assert (Hfar : forall b, b ∈ used_segment a -> size <= Z.abs (b - m)).
    { intros b Hbu. destruct Hseg as [_ Hseg]. apply Hseg.
      - apply elem_of_app. by left.
      - apply elem_of_app. right. left.
      - intros ->. done. }
    assert (Hmixed : forall x y, x ∈ p' :: fl' -> y ∈ held ->
                       bs <= Z.abs (x - y)).
    { intros x y Hx Hy.
      destruct (Hall x Hx) as (_ & Hxlo & Hxhi).
      destruct (Hin y Hy) as (b & Hbu & _ & Hylo & Hyhi).
      specialize (Hfar b Hbu). lia. }
    assert (Hfull : spaced bs ((p' :: fl') ++ held)).
    { destruct Hnew as [Hnd1 Hsp1]. destruct Hsp as [Hnd2 Hsp2]. split.
      - apply NoDup_app. split; [assumption|]. split; [|assumption].
        intros x Hx Hy. specialize (Hmixed x x Hx Hy). lia.
      - intros x y [Hx|Hx]%elem_of_app [Hy|Hy]%elem_of_app Hne.
        + auto.
        + auto.
        + specialize (Hmixed y x Hy Hx). lia.
        + auto. }
    assert (Hcomb : forall held',
              NoDup (fl' ++ held') ->
              (forall x, x ∈ fl' ++ held' -> x ∈ (p' :: fl') ++ held) ->
              cinv (mkAlloc fl' (m :: used_segment a) bs)
                held' (mkWorld ((m, size) :: live w) rest)).
    { intros held' Hnd Hsub. unfold client_inv. simpl.
      split; [reflexivity|].
      split; [by apply (spaced_subset _ _ _ Hnd Hsub)|].
      split; [|split; [|split]].
      - intros x Hx. apply Hsub in Hx.
        apply elem_of_app in Hx as [Hx|Hx].
        + exists m. split; [left | by apply Hall].
        + destruct (Hin x Hx) as (b & Hbu & Hfits).
          exists b. split; [by right | assumption].
      - apply (spaced_perm _ (used_segment a ++
                                m :: filter (fun m => m <> 0) rest));
          [|assumption].
        by rewrite <- Permutation_middle.
      - assumption.
      - intros b [->|Hbu]%elem_of_cons; [left | right; auto]. }
    destruct (Z.eqb_spec p' 0) as [Hz|Hnz].
    + apply Hcomb.
      * destruct Hfull as [Hnd _]. simpl in Hnd.
        by apply NoDup_cons in Hnd as [_ Hnd].
      * intros x Hx. simpl. by right.
    + apply Hcomb.
      * rewrite <- Permutation_middle. by destruct Hfull.
      * intros x. by rewrite <- Permutation_middle.
Qed.

Lemma client_inv_free (a : ebpf_allocator_t) (held : list Z) (w : world)
    (ptr : Z) :
  cinv a held w -> ptr ∈ held ->
  cinv (mkAlloc (ptr :: free_block a) (used_segment a) (block_size a))
    (filter (fun q => q <> ptr) held) w.
Proof.
  intros Hinv Hptr.
  pose proof Hinv as (_ & [Hnd _] & _).
  apply NoDup_app in Hnd as (Hnd1 & Hdisj & Hnd2).
  apply (client_inv_reshape a _ held _ w Hinv); try reflexivity; simpl.
  - apply NoDup_cons. split.
    + intros [Hx|Hx]%elem_of_app.
      * by apply (Hdisj ptr).
      * apply list_elem_of_filter in Hx as [Hx _]. done.
    + apply NoDup_app. split; [assumption|]. split.
      * intros x Hx [_ Hy]%list_elem_of_filter. by apply (Hdisj x).
      * by apply NoDup_filter.
  - intros x [->|[Hx|Hx]%elem_of_app]%elem_of_cons; apply elem_of_app.
    + by right.
    + by left.
    + apply list_elem_of_filter in Hx as [_ Hx]. by right.
Qed.

Lemma client_inv_prealloc_loop (n : nat) :
  forall (a a' : ebpf_allocator_t) (held : list Z) (w w' : world) (e : Z),
  cinv a held w ->
  prealloc_loop EBPF_ALLOCATOR_ALIGN entry_size pagesize n a w =
    Done (e, a') w' ->
  cinv a' held w'.
Proof.
  induction n as [|n IH]; intros a a' held w w' e Hinv Hrun.
  - injection Hrun as _ <- <-. assumption.
  - simpl in Hrun. unfold bind in Hrun.
    destruct (alloc a w) as [[tmp a1] w1|f] eqn:Ha; [|discriminate].
    pose proof (client_inv_alloc a a1 held w w1 tmp Hinv Ha) as Hinv1.
    destruct (Z.eqb_spec tmp 0) as [Hz|Hnz].
    + injection Hrun as _ <- <-. assumption.
    + rewrite (free_linked a1 tmp w1 Hnz) in Hrun.
      pose proof (client_inv_free a1 (tmp :: held) w1 tmp Hinv1
                    ltac:(left)) as Hinv2.
      assert (Htmp : tmp ∉ held).
      { destruct Hinv1 as (_ & [Hnd _] & _).
        apply NoDup_app in Hnd as (_ & _ & Hnd).
        by apply NoDup_cons in Hnd as [Hnd _]. }
      rewrite filter_cons_False in Hinv2 by (intros H; by apply H).
      rewrite filter_ne_notin in Hinv2 by assumption.
      eapply IH; eassumption.
Qed.

Lemma client_inv_run (ops : list alloc_op) :
  forall (a a' : ebpf_allocator_t) (held held' : list Z) (w w' : world),
  cinv a held w ->
  client_run EBPF_ALLOCATOR_ALIGN entry_size pagesize ops a held w =
    Done (Some (a', held')) w' ->
  cinv a' held' w'.
Proof.
  induction ops as [|[|ptr|n] ops IH]; intros a a' held held' w w' Hinv Hrun.
  - injection Hrun as <- <- <-. assumption.
  - simpl in Hrun. unfold bind in Hrun.
    destruct (alloc a w) as [[p a1] w1|f] eqn:Ha; [|discriminate].
    eapply IH; [|exact Hrun]. simpl.
    by apply (client_inv_alloc a a1 held w w1 p).
  - simpl in Hrun. destruct (bool_decide_reflect (ptr ∈ held)) as [Hin|Hout];
      [|discriminate].
    unfold bind in Hrun.
    destruct (ebpf_allocator_free a ptr w) as [a1 w1|f] eqn:Hf;
      [|discriminate].
    apply free_done in Hf as (_ & -> & ->).
    eapply IH; [|exact Hrun]. by apply client_inv_free.
  - simpl in Hrun. unfold bind in Hrun.
    destruct (prealloc a n w) as [[e a1] w1|f] eqn:Hp; [|discriminate].
    eapply IH; [|exact Hrun]. simpl.
    unfold ebpf_allocator_prealloc in Hp. destruct (n =? 0).
    + injection Hp as _ <- <-. assumption.
    + eapply client_inv_prealloc_loop; eassumption.
Qed.

(** A block the client holds can be linked by [ebpf_allocator_free]: it
    lies in a live segment behind the header, away from every block of
    the free list and from the base of every segment. *)
Lemma client_inv_freeable (a : ebpf_allocator_t) (held : list Z) (w : world)
    (x : Z) :
  cinv a held w -> x ∈ held -> x <> 0 -> freeable entry_size w a x.
Proof.
  intros (Hb & [Hnd Hsp] & Hin & [_ Hseg] & _ & Hlive) Hx Hnz.
  destruct (Hin x ltac:(apply elem_of_app; by right))
    as (b & Hbu & _ & Hlo & Hhi).
  assert (Hle : EBPF_ALLOCATOR_ALIGN <= bs)
    by (apply Z.divide_pos_le; [lia | assumption]).
  assert (Hfar : forall q, q ∈ free_block a ++ used_segment a ->
                   entry_size <= Z.abs (x - q)).
  { intros q [Hq|Hq]%elem_of_app.
    - assert (Hne : x <> q).
      { intros <-. apply NoDup_app in Hnd as (_ & Hd & _). by apply (Hd x). }
      specialize (Hsp x q ltac:(apply elem_of_app; by right)
                    ltac:(apply elem_of_app; by left) Hne).
      lia.
    - destruct (decide (q = b)) as [->|Hne]; [lia|].
      specialize (Hseg b q ltac:(apply elem_of_app; by left)
                    ltac:(apply elem_of_app; by left) ltac:(congruence)).
      lia. }
  split; [assumption|]. split.
  { exists b, size. split; [by apply Hlive | lia]. }
  split; [|split; [|assumption]].
  - intros Hq. specialize (Hfar x ltac:(apply elem_of_app; by left)). lia.
  - intros Hq. specialize (Hfar x ltac:(apply elem_of_app; by right)). lia.
Qed.

End Client.

(** X12: no block is handed out twice.  Take an allocator initialised
    with a block size whose segment fits in 32 bits, a host that grants
    aligned segments which do not overlap, and a client that frees only
    blocks it holds.  Then after any run of calls the blocks the client
    holds and the blocks on the free list are all different, no two of
    them overlap, and each is aligned and inside a live segment of the
    used-segment list. *)
Theorem client_blocks_disjoint (a0 a a' : ebpf_allocator_t) (bs : Z)
    (w0 w w' : world) (ops : list alloc_op) (held : list Z) :
  0 <= bs ->
  entry_size + bs + EBPF_ALLOCATOR_ALIGN < 2 ^ 32 ->
  ebpf_allocator_init EBPF_ALLOCATOR_ALIGN a0 bs w0 = Done (0, a) w ->
  Forall (fun m => (EBPF_ALLOCATOR_ALIGN | m)) (oracle w0) ->
  spaced (Z.max pagesize (entry_size + bs + EBPF_ALLOCATOR_ALIGN))
    (filter (fun m => m <> 0) (oracle w0)) ->
  client_run EBPF_ALLOCATOR_ALIGN entry_size pagesize ops a [] w =
    Done (Some (a', held)) w' ->
  spaced bs (free_block a' ++ held) /\
  Forall (block_ok EBPF_ALLOCATOR_ALIGN w' a') (free_block a' ++ held).
Proof.
  intros Hbs0 Hfit Hinit Hal Hfar Hrun.
  unfold ebpf_allocator_init in Hinit.
  destruct (Z.eqb_spec (bs mod EBPF_ALLOCATOR_ALIGN) 0) as [Hmod|];
    destruct (Z.eqb_spec bs 0); simpl in Hinit; try discriminate.
  injection Hinit as <- <-.
  assert (Hbs : 0 < bs) by lia.
  assert (Hdiv : (EBPF_ALLOCATOR_ALIGN | bs))
    by (apply Z.mod_divide; [lia | assumption]).
  assert (Hstart : client_inv EBPF_ALLOCATOR_ALIGN entry_size
            (Z.max pagesize (entry_size + bs + EBPF_ALLOCATOR_ALIGN)) bs
            (mkAlloc [] [] bs) [] w0).
  { unfold client_inv. simpl. split; [reflexivity|].
    split; [split; [constructor|];
            intros x y Hx; by apply elem_of_nil in Hx|].
    split; [intros x Hx; by apply elem_of_nil in Hx|].
    split; [assumption|]. split; [assumption|].
    intros b Hb. by apply elem_of_nil in Hb. }
  pose proof (client_inv_run bs Hbs Hdiv Hfit ops _ _ _ _ _ _ Hstart Hrun)
    as (Hb & Hsp & Hin & _ & _ & Hlive).
  split; [assumption|]. apply Forall_forall. intros x Hx.
  destruct (Hin x Hx) as (b & Hbu & Hfits).
  apply (fits_block_ok EBPF_ALLOCATOR_ALIGN entry_size Hword Hentry a' w' b
           (Z.max pagesize (entry_size + bs + EBPF_ALLOCATOR_ALIGN)) x).
  - by apply list_elem_of_In.
  - apply list_elem_of_In. auto.
  - by rewrite Hb.
Qed.

(** X8: a client that frees only blocks it holds makes no call that
    goes wrong.  For an allocator and a host as in X12, every run of such
    a client returns: the pop never reads an empty free list, the carving
    loop ends and no null pointer is handed to [ebpf_allocator_free]; and
    every block the client holds after the run is one that
    [ebpf_allocator_free] can link, so every free of the run was given
    such a block. *)
Theorem client_run_safe (a0 a : ebpf_allocator_t) (bs : Z) (w0 w : world)
    (ops : list alloc_op) :
  0 <= bs ->
  entry_size + bs + EBPF_ALLOCATOR_ALIGN < 2 ^ 32 ->
  ebpf_allocator_init EBPF_ALLOCATOR_ALIGN a0 bs w0 = Done (0, a) w ->
  Forall (fun m => (EBPF_ALLOCATOR_ALIGN | m)) (oracle w0) ->
  spaced (Z.max pagesize (entry_size + bs + EBPF_ALLOCATOR_ALIGN))
    (filter (fun m => m <> 0) (oracle w0)) ->
  exists r w',
    client_run EBPF_ALLOCATOR_ALIGN entry_size pagesize ops a [] w =
      Done r w' /\
    forall a' held,
      r = Some (a', held) -> Forall (freeable entry_size w' a') held.
Proof.
  intros Hbs0 Hfit Hinit Hal Hfar.
  unfold ebpf_allocator_init in Hinit.
  destruct (Z.eqb_spec (bs mod EBPF_ALLOCATOR_ALIGN) 0) as [Hmod|];
    destruct (Z.eqb_spec bs 0); simpl in Hinit; try discriminate.
  injection Hinit as <- <-.
  assert (Hbs : 0 < bs) by lia.
  assert (Hdiv : (EBPF_ALLOCATOR_ALIGN | bs))
    by (apply Z.mod_divide; [lia | assumption]).
  destruct (client_run_total ops (mkAlloc [] [] bs) [] w0 Hbs
              ltac:(apply not_elem_of_nil)) as (r & w' & Hrun).
  exists r, w'. split; [assumption|].
  intros a' held ->.
  assert (Hstart : client_inv EBPF_ALLOCATOR_ALIGN entry_size
            (Z.max pagesize (entry_size + bs + EBPF_ALLOCATOR_ALIGN)) bs
            (mkAlloc [] [] bs) [] w0).
  { unfold client_inv. simpl. split; [reflexivity|].
    split; [split; [constructor|];
            intros x y Hx; by apply elem_of_nil in Hx|].
    split; [intros x Hx; by apply elem_of_nil in Hx|].
    split; [assumption|]. split; [assumption|].
    intros b Hb. by apply elem_of_nil in Hb. }
  pose proof (client_inv_run bs Hbs Hdiv Hfit ops _ _ _ _ _ _ Hstart Hrun)
    as Hinv.
  pose proof (client_run_nonnull ops _ _ _ _ _ _
                ltac:(apply not_elem_of_nil) Hrun) as Hnn.
  apply Forall_forall. intros x Hx.
  apply (client_inv_freeable bs Hbs Hdiv a' held w' x Hinv Hx).
  intros ->. done.
Qed.

(** X9: nothing leaks.  For an allocator and a host as in X12 and a
    client that frees only blocks it holds (none of them is the base of a
    segment), whatever calls the client makes between
    [ebpf_allocator_init] and [ebpf_allocator_deinit], the deinit hands
    every segment the allocator obtained back to the host, which is left
    with the regions it had handed out before the init; the free list is
    not touched. *)
Theorem deinit_releases_all (a0 a a' : ebpf_allocator_t) (bs : Z)
    (w0 w w' : world) (ops : list alloc_op) (held : list Z) :
  0 <= bs ->
  entry_size + bs + EBPF_ALLOCATOR_ALIGN < 2 ^ 32 ->
  ebpf_allocator_init EBPF_ALLOCATOR_ALIGN a0 bs w0 = Done (0, a) w ->
  Forall (fun m => (EBPF_ALLOCATOR_ALIGN | m)) (oracle w0) ->
  spaced (Z.max pagesize (entry_size + bs + EBPF_ALLOCATOR_ALIGN))
    (filter (fun m => m <> 0) (oracle w0)) ->
  client_run EBPF_ALLOCATOR_ALIGN entry_size pagesize ops a [] w =
    Done (Some (a', held)) w' ->
  ebpf_allocator_deinit a' w' =
    Done (mkAlloc (free_block a') [] bs) (mkWorld (live w0) (oracle w')).
Proof using Hword Hentry Hpage Hpage_al.
  intros Hbs0 _ Hinit _ _ Hrun.
  assert (Hstart : owns (live w0) a w /\ block_size a = bs).
  { unfold ebpf_allocator_init in Hinit.
    destruct (bs mod EBPF_ALLOCATOR_ALIGN =? 0);
      destruct (Z.eqb_spec bs 0); simpl in Hinit; try discriminate.
    injection Hinit as <- <-. simpl. split; [|reflexivity].
    split; [simpl; lia|]. by exists []. }
  pose proof (client_run_preserves
    (fun a w => owns (live w0) a w /\ block_size a = bs)) as Hkeep.
  assert (Hend : owns (live w0) a' w' /\ block_size a' = bs).
  { eapply Hkeep; [| |exact Hstart|exact Hrun].
    - intros a1 w1 p a2 w2 [[Hbs1 (segs & Hlive & Hsegs)] Heq] Ha.
      destruct (alloc_frame_aux a1 a2 w1 w2 p Hbs1 Ha)
        as (Hbs2 & Hne & Hempty).
      split; [|lia]. split; [lia|].
      destruct (free_block a1) as [|q fl] eqn:Hfl.
      + destruct (Hempty eq_refl) as
          [(_ & -> & Hl & _)|(m & _ & _ & Hu & Hl)].
        * exists segs. by rewrite Hl.
        * exists ((m, seg_size (block_size a1)) :: segs).
          rewrite Hl, Hu, Hlive. split; [reflexivity|].
          rewrite fmap_cons. simpl. by rewrite Hsegs.
      + destruct (Hne ltac:(discriminate)) as [-> Hu].
        exists segs. by rewrite Hu.
    - intros a1 w1 ptr a2 w2 [[Hbs1 Hown] Heq] Hf.
      apply free_done in Hf as (_ & -> & ->). simpl. split; [|assumption].
      split; assumption. }
  destruct Hend as [[_ (segs & Hlive & Hsegs)] Hbs'].
  unfold ebpf_allocator_deinit, bind.
  rewrite (release_segments_owned (used_segment a') segs (live w0) w'
             Hlive Hsegs).
  unfold ret. by rewrite Hbs'.
Qed.

End Fits32.

End AllocatorMore.

(** * The further theorems on the LP64 host

    Blocks of 1024 bytes, pages of 4096 bytes; a segment gives three
    blocks. *)

(** Two different addresses of a short list are far enough apart. *)
Ltac solve_spaced :=
  split;
  [ apply (bool_decide_unpack _); vm_compute; exact I
  | intros x y Hx Hy Hne;
    repeat (apply elem_of_cons in Hx as [->|Hx]);
    try (by apply elem_of_nil in Hx);
    repeat (apply elem_of_cons in Hy as [->|Hy]);
    try (by apply elem_of_nil in Hy);
    first [ done | lia ] ].

(** A segment four bytes off the alignment still gives aligned
    blocks. *)
Lemma alloc_aligned_witness :
  67600 mod 8 = 0 /\ Forall (fun q => q mod 8 = 0) [66576; 65552].
Proof.
  apply (alloc_aligned 8 8 4096 (mkAlloc [] [] 1024)
           (mkAlloc [66576; 65552] [65540] 1024)
           (mkWorld [] [65540]) (mkWorld [(65540, 4096)] []) 67600).
  - lia.
  - simpl. lia.
  - reflexivity.
  - constructor.
  - vm_compute. reflexivity.
Defined.

Lemma alloc_blocks_spaced_witness : spaced 1024 [67592; 66568; 65544].
Proof.
  apply (alloc_blocks_spaced 8 8 4096 (mkAlloc [] [] 1024)
           (mkAlloc [66568; 65544] [65536] 1024)
           (mkWorld [] [65536]) (mkWorld [(65536, 4096)] []) 67592).
  - simpl. lia.
  - simpl. split; [constructor|]. intros x y Hx. by apply elem_of_nil in Hx.
  - vm_compute. reflexivity.
Defined.

Lemma alloc_frame_witness :
  exists m, m <> 0 /\ [65536] = m :: [] /\
            [65536] = m :: [] /\
            [(65536, 4096)] = (m, segment_size 8 8 4096 1024) :: [].
Proof.
  destruct (alloc_frame 8 8 4096 (mkAlloc [] [] 1024)
              (mkAlloc [66568; 65544] [65536] 1024)
              (mkWorld [] [65536]) (mkWorld [(65536, 4096)] []) 67592)
    as (_ & _ & H).
  - simpl. lia.
  - vm_compute. reflexivity.
  - destruct (H eq_refl) as [(Hz & _)|Hm]; [discriminate | exact Hm].
Defined.

Lemma alloc_null_iff_witness :
  (0 = 0 <-> @nil Z = [] /\ host_refuses (mkWorld [] [0; 65536])) /\
  (0 = 0 -> mkAlloc [] [] 1024 = mkAlloc [] [] 1024 /\
            @nil (Z * Z) = []).
Proof.
  apply (alloc_null_iff 8 8 4096 (mkAlloc [] [] 1024) (mkAlloc [] [] 1024)
           (mkWorld [] [0; 65536]) (mkWorld [] [65536]) 0).
  - lia.
  - lia.
  - simpl. lia.
  - constructor.
  - repeat constructor; lia.
  - vm_compute. reflexivity.
Defined.

Lemma prealloc_count_irrelevant_witness :
  ebpf_allocator_prealloc 8 8 4096 (mkAlloc [] [] 1024) 100
    (mkWorld [] [65536; 131072]) =
  ebpf_allocator_prealloc 8 8 4096 (mkAlloc [] [] 1024) 1
    (mkWorld [] [65536; 131072]).
Proof.
  apply (prealloc_count_irrelevant 8 8 4096). lia.
Defined.

Lemma prealloc_outcome_witness :
  (ENOMEM = ENOMEM <-> @nil Z = [] /\ host_refuses (mkWorld [] [])) /\
  (ENOMEM = ENOMEM -> mkAlloc [] [] 1024 = mkAlloc [] [] 1024 /\
                      @nil (Z * Z) = []) /\
  (ENOMEM <> ENOMEM -> ENOMEM = 0 /\ @nil Z <> []).
Proof.
  apply (prealloc_outcome 8 8 4096 (mkAlloc [] [] 1024) (mkAlloc [] [] 1024)
           (mkWorld [] []) (mkWorld [] []) 3 ENOMEM).
  - lia.
  - lia.
  - simpl. lia.
  - constructor.
  - constructor.
  - lia.
  - vm_compute. reflexivity.
Defined.

(** The block of the third allocation goes back and comes again. *)
Lemma free_alloc_roundtrip_witness :
  (a1 <- ebpf_allocator_free (mkAlloc [66568; 65544] [65536] 1024) 67592 ;;
   ebpf_allocator_alloc 8 8 4096 a1) (mkWorld [(65536, 4096)] []) =
    Done (67592, mkAlloc [66568; 65544] [65536] 1024)
         (mkWorld [(65536, 4096)] []) /\
  (r <- ebpf_allocator_alloc 8 8 4096
          (mkAlloc [67592; 66568; 65544] [65536] 1024) ;;
   ebpf_allocator_free (snd r) (fst r)) (mkWorld [(65536, 4096)] []) =
    Done (mkAlloc [67592; 66568; 65544] [65536] 1024)
         (mkWorld [(65536, 4096)] []).
Proof.
  apply (free_alloc_roundtrip 8 8 4096
           (mkAlloc [66568; 65544] [65536] 1024)
           (mkWorld [(65536, 4096)] []) 67592).
  exact block_freeable_lp64.
Defined.

(** A client that runs the first segment dry, hands a block back and
    takes it again. *)
Lemma client_run_safe_witness :
  exists r w',
    client_run 8 8 4096
      [OpAlloc; OpAlloc; OpAlloc; OpAlloc; OpFree 67592; OpPrealloc 3;
       OpAlloc]
      (mkAlloc [] [] 1024) [] (mkWorld [(4096, 100)] [65536; 131072]) =
      Done r w' /\
    forall a' held,
      r = Some (a', held) -> Forall (freeable 8 w' a') held.
Proof.
  apply (client_run_safe 8 8 4096 ltac:(lia) eq_refl ltac:(lia)
           ltac:(exists 512; reflexivity)
           (mkAlloc [] [] 0) (mkAlloc [] [] 1024) 1024
           (mkWorld [(4096, 100)] [65536; 131072])
           (mkWorld [(4096, 100)] [65536; 131072])).
  - lia.
  - lia.
  - vm_compute. reflexivity.
  - repeat constructor; [exists 8192 | exists 16384]; reflexivity.
  - change (filter (fun m => m <> 0)
              (oracle (mkWorld [(4096, 100)] [65536; 131072])))
      with [65536; 131072].
    change (Z.max 4096 (8 + 1024 + 8)) with 4096.
    solve_spaced.
Defined.

Lemma deinit_releases_all_witness :
  ebpf_allocator_deinit (mkAlloc [132104; 131080] [131072; 65536] 1024)
    (mkWorld [(131072, 4096); (65536, 4096); (4096, 100)] []) =
  Done (mkAlloc [132104; 131080] [] 1024) (mkWorld [(4096, 100)] []).
Proof.
  apply (deinit_releases_all 8 8 4096 ltac:(lia) eq_refl ltac:(lia)
           ltac:(exists 512; reflexivity)
           (mkAlloc [] [] 0) (mkAlloc [] [] 1024)
           (mkAlloc [132104; 131080] [131072; 65536] 1024) 1024
           (mkWorld [(4096, 100)] [65536; 131072])
           (mkWorld [(4096, 100)] [65536; 131072])
           (mkWorld [(131072, 4096); (65536, 4096); (4096, 100)] [])
           [OpAlloc; OpAlloc; OpAlloc; OpAlloc; OpFree 67592; OpPrealloc 3;
            OpAlloc]
           [67592; 133128; 65544; 66568]).
  - lia.
  - lia.
  - vm_compute. reflexivity.
  - repeat constructor; [exists 8192 | exists 16384]; reflexivity.
  - change (filter (fun m => m <> 0)
              (oracle (mkWorld [(4096, 100)] [65536; 131072])))
      with [65536; 131072].
    change (Z.max 4096 (8 + 1024 + 8)) with 4096.
    solve_spaced.
  - vm_compute. reflexivity.
Defined.

Lemma alloc_refill_blocks_witness :
  exists p fl,
    ebpf_allocator_alloc 8 8 4096 (mkAlloc [] [] 1024)
      (mkWorld [] [65536]) =
      Done (p, mkAlloc fl [65536] 1024) (mkWorld [(65536, 4096)] []) /\
    p :: fl = [67592; 66568; 65544].
Proof.
  apply (alloc_refill_blocks 8 8 4096 ltac:(lia) eq_refl ltac:(lia)
           ltac:(exists 512; reflexivity)
           (mkAlloc [] [] 1024) (mkWorld [] [65536]) 65536 []).
  - simpl. lia.
  - exists 128. reflexivity.
  - simpl. lia.
  - reflexivity.
  - reflexivity.
  - lia.
  - exists 8192. reflexivity.
Defined.

Lemma alloc_block_in_segment_witness :
  block_ok 8 (mkWorld [(65536, 4096)] [])
    (mkAlloc [66568; 65544] [65536] 1024) 67592.
Proof.
  destruct (alloc_block_in_segment 8 8 4096 ltac:(lia) eq_refl ltac:(lia)
              ltac:(exists 512; reflexivity)
              (mkAlloc [] [] 1024) (mkAlloc [66568; 65544] [65536] 1024)
              (mkWorld [] [65536]) (mkWorld [(65536, 4096)] []) 67592)
    as (_ & H & _).
  - simpl. lia.
  - exists 128. reflexivity.
  - simpl. lia.
  - repeat constructor. exists 8192. reflexivity.
  - constructor.
  - vm_compute. reflexivity.
  - apply H. lia.
Defined.

(** Four allocations, the fourth from a second segment, then a block
    goes back and is taken again. *)
Lemma client_blocks_disjoint_witness :
  spaced 1024 ([132104; 131080] ++ [67592; 133128; 65544; 66568]) /\
  Forall (block_ok 8 (mkWorld [(131072, 4096); (65536, 4096)] [])
            (mkAlloc [132104; 131080] [131072; 65536] 1024))
    ([132104; 131080] ++ [67592; 133128; 65544; 66568]).
Proof.
  apply (client_blocks_disjoint 8 8 4096 ltac:(lia) eq_refl ltac:(lia)
           ltac:(exists 512; reflexivity)
           (mkAlloc [] [] 0) (mkAlloc [] [] 1024)
           (mkAlloc [132104; 131080] [131072; 65536] 1024) 1024
           (mkWorld [] [65536; 131072]) (mkWorld [] [65536; 131072])
           (mkWorld [(131072, 4096); (65536, 4096)] [])
           [OpAlloc; OpAlloc; OpAlloc; OpAlloc; OpFree 67592; OpAlloc]
           [67592; 133128; 65544; 66568]).
  - lia.
  - lia.
  - vm_compute. reflexivity.
  - repeat constructor; [exists 8192 | exists 16384]; reflexivity.
  - change (filter (fun m => m <> 0) (oracle (mkWorld [] [65536; 131072])))
      with [65536; 131072].
    change (Z.max 4096 (8 + 1024 + 8)) with 4096.
    solve_spaced.
  - vm_compute. reflexivity.
Defined.

Lemma alloc_many_one_segment_witness :
  alloc_many 8 8 4096 3 (mkAlloc [] [] 1024) (mkWorld [] [65536; 131072]) =
    Done ([67592; 66568; 65544], mkAlloc [] [65536] 1024)
         (mkWorld [(65536, 4096)] [131072]).
Proof.
  apply (alloc_many_one_segment 8 8 4096 ltac:(lia) eq_refl ltac:(lia)
           ltac:(exists 512; reflexivity)
           (mkAlloc [] [] 1024) (mkWorld [] [65536; 131072]) 65536
           [131072]).
  - simpl. lia.
  - exists 128. reflexivity.
  - simpl. lia.
  - reflexivity.
  - reflexivity.
  - lia.
  - exists 8192. reflexivity.
Defined.
